(** * Shallow embedding of starcraft-voice-bot: catalog, fuzzy search,
      handle cache and the upload pipeline.

    Sources: [src/audio_manager.py] (class [AudioManager]) and [src/bot.py]
    ([load_file_id_cache], [save_file_id_cache], [cmd_upload],
    [inline_query_handler]).  Python strings are modelled as ASCII
    [string]s, Python dicts as insertion-ordered association lists. *)

From Stdlib Require Import String Ascii List Bool Arith Lia QArith Sorting.Sorted Classes.RelationClasses DecimalString.
Import ListNotations.
Open Scope string_scope.

(** ** Python string helpers *)
Module PyStr.

(** [s.replace(a, b)] for one-character [a] and [b]. *)
Fixpoint replace (a b : ascii) (s : string) : string :=
  match s with
  | EmptyString => EmptyString
  | String c r => String (if Ascii.eqb c a then b else c) (replace a b r)
  end.

(** [s.split(c)] for a one-character separator: ["".split("/") == [""]]. *)
Fixpoint split (c : ascii) (s : string) : list string :=
  match s with
  | EmptyString => [EmptyString]
  | String x r =>
      let rest := split c r in
      if Ascii.eqb x c then EmptyString :: rest
      else match rest with
           | h :: t => String x h :: t
           | [] => [String x EmptyString]
           end
  end.

(** [sep.join(l)]. *)
Fixpoint join (sep : string) (l : list string) : string :=
  match l with
  | [] => EmptyString
  | [x] => x
  | x :: r => x ++ sep ++ join sep r
  end.

(** [s.rsplit(c, 1)]: [Some p] when [c] occurs, [p] the text before the
    last occurrence. *)
Fixpoint rsplit1 (c : ascii) (s : string) : option string :=
  match s with
  | EmptyString => None
  | String x r =>
      match rsplit1 c r with
      | Some p => Some (String x p)
      | None => if Ascii.eqb x c then Some EmptyString else None
      end
  end.

(** [s.rsplit(c, 1)[0]]. *)
Definition rsplit_head (c : ascii) (s : string) : string :=
  match rsplit1 c s with Some p => p | None => s end.

Definition is_upper (c : ascii) : bool :=
  (Nat.leb 65 (nat_of_ascii c)) && (Nat.leb (nat_of_ascii c) 90).
Definition is_lower (c : ascii) : bool :=
  (Nat.leb 97 (nat_of_ascii c)) && (Nat.leb (nat_of_ascii c) 122).
(** cased characters: letters (ASCII). *)
Definition is_cased (c : ascii) : bool := is_upper c || is_lower c.
Definition to_upper (c : ascii) : ascii :=
  if is_lower c then ascii_of_nat (nat_of_ascii c - 32) else c.
Definition to_lower (c : ascii) : ascii :=
  if is_upper c then ascii_of_nat (nat_of_ascii c + 32) else c.

(** [str.title()] as in CPython's [do_title]: a character is lowered when
    the previous character is cased, title-cased otherwise. *)
Fixpoint title_aux (previous_is_cased : bool) (s : string) : string :=
  match s with
  | EmptyString => EmptyString
  | String c r =>
      String (if previous_is_cased then to_lower c else to_upper c)
             (title_aux (is_cased c) r)
  end.
Definition title (s : string) : string := title_aux false s.

(** [s.endswith(suffix)]. *)
Definition endswith (suffix s : string) : bool :=
  Nat.leb (String.length suffix) (String.length s)
  && String.eqb (substring (String.length s - String.length suffix) (String.length suffix) s) suffix.

(** [s.strip()] on ASCII whitespace. *)
Definition is_space (c : ascii) : bool :=
  let n := nat_of_ascii c in Nat.eqb n 32 || (Nat.leb 9 n && Nat.leb n 13).
Fixpoint lstrip (s : string) : string :=
  match s with
  | EmptyString => EmptyString
  | String c r => if is_space c then lstrip r else s
  end.
Fixpoint rev_str (s acc : string) : string :=
  match s with EmptyString => acc | String c r => rev_str r (String c acc) end.
Definition strip (s : string) : string :=
  rev_str (lstrip (rev_str (lstrip s) EmptyString)) EmptyString.

End PyStr.

Definition slash : ascii := "/"%char.
Definition backslash : ascii := "\"%char.

(** ** Python dicts: insertion-ordered association lists *)
Module Dict.

Definition t (V : Type) := list (string * V).

Fixpoint get {V} (k : string) (d : t V) : option V :=
  match d with
  | [] => None
  | (k', v) :: r => if String.eqb k k' then Some v else get k r
  end.

Definition mem {V} (k : string) (d : t V) : bool :=
  match get k d with Some _ => true | None => false end.

(** [d[k] = v]: an existing key keeps its position, a new key goes last. *)
Fixpoint set {V} (k : string) (v : V) (d : t V) : t V :=
  match d with
  | [] => [(k, v)]
  | (k', v') :: r => if String.eqb k k' then (k', v) :: r else (k', v') :: set k v r
  end.

Definition keys {V} (d : t V) : list string := map fst d.

End Dict.

(** ** Handle cache persistence ([bot.py], lines 30-55) *)

(** The loop shared by [load_file_id_cache] and [save_file_id_cache]:
    [normalized_cache[path.replace('\\', '/')] = file_id]. *)
Definition normalize_cache (cache : Dict.t string) : Dict.t string :=
  fold_left (fun acc '(path, file_id) =>
               Dict.set (PyStr.replace backslash slash path) file_id acc)
            cache [].

(** The backing file [file_id_cache.json]: [None] when it does not exist.
    [json.dump] / [json.load] of a [str -> str] dict is the identity on the
    dict (keys and order kept), so the file holds the dict itself. *)
Definition cache_file := option (Dict.t string).

Definition save_file_id_cache (cache : Dict.t string) (_ : cache_file) : cache_file :=
  Some (normalize_cache cache).

Definition load_file_id_cache (f : cache_file) : Dict.t string :=
  match f with
  | Some cache => normalize_cache cache
  | None => []
  end.

(** ** Display names ([AudioManager._load_audio_files], lines 28-43) *)

Definition display_name (relative_path file : string) : string :=
  let path_parts := PyStr.split slash (PyStr.replace backslash slash relative_path) in
  if Nat.ltb 1 (length path_parts) then
    let category := PyStr.join "/" (removelast path_parts) in
    let filename := PyStr.rsplit_head "."%char (last path_parts EmptyString) in
    "[" ++ PyStr.title category ++ "] " ++ filename
  else PyStr.rsplit_head "."%char file.

(** ** Directory tree and [os.walk] *)

#[local] Set Warnings "-register-all".

(** A directory entry: a regular file or a subdirectory with its listing
    (in [os.scandir] order).  The audio root is its list of entries. *)
Inductive node :=
| File (name : string)
| Dir (name : string) (children : list node).

Definition node_name (n : node) : string :=
  match n with File f => f | Dir d _ => d end.

(** the [files] part of one [os.walk] triple *)
Definition dir_files (cs : list node) : list string :=
  flat_map (fun c => match c with File f => [f] | Dir _ _ => [] end) cs.

(** [os.walk] top-down: a directory yields its files, then the walk of each
    subdirectory in listing order.  Each file comes with the directory
    segments between the audio root and [root]. *)
Fixpoint walk_node (here : list string) (n : node) : list (list string * string) :=
  match n with
  | File _ => []
  | Dir d cs =>
      let here' := app here [d] in
      app (map (fun f => (here', f)) (dir_files cs))
          (flat_map (walk_node here') cs)
  end.

Definition walk_root (cs : list node) : list (list string * string) :=
  app (map (fun f => ([], f)) (dir_files cs)) (flat_map (walk_node []) cs).

(** [os.path.relpath(os.path.join(root, file), audio_dir)] with [os.sep]. *)
Definition relpath (sep : string) (segs : list string) (file : string) : string :=
  PyStr.join sep (app segs [file]).

Definition recognized (file : string) : bool :=
  PyStr.endswith ".wav" file || PyStr.endswith ".ogg" file.

(** [AudioManager._load_audio_files]: [audio_dir] is [None] when the
    directory does not exist (it is then created and nothing is added). *)
Definition load_audio_files (sep : string) (audio_dir : option (list node))
    (audio_files : Dict.t string) : Dict.t string :=
  match audio_dir with
  | None => audio_files
  | Some root =>
      fold_left (fun acc '(segs, file) =>
                   if recognized file then
                     let relative_path := relpath sep segs file in
                     Dict.set relative_path (display_name relative_path file) acc
                   else acc)
                (walk_root root) audio_files
  end.

(** [AudioManager(audio_dir)]: starts from an empty dict. *)
Definition build_catalog (sep : string) (audio_dir : option (list node)) : Dict.t string :=
  load_audio_files sep audio_dir [].

(** ** Fuzzy search ([AudioManager.search], lines 45-75) *)
Section Search.

(** [fuzz.partial_ratio(query, choice)], a score in [0, 100]. *)
Variable partial_ratio : string -> string -> Q.

(** one [process.extract] result: (choice, score, index) *)
Definition scored := (string * Q * nat)%type.

(** rapidfuzz's result order: score descending, then index ascending. *)
Definition ranks_before (a b : scored) : bool :=
  let '(_, sa, ia) := a in
  let '(_, sb, ib) := b in
  negb (Qle_bool sa sb) || (Qeq_bool sa sb && Nat.ltb ia ib).

Fixpoint insert_ranked (x : scored) (l : list scored) : list scored :=
  match l with
  | [] => [x]
  | h :: t => if ranks_before x h then x :: h :: t else h :: insert_ranked x t
  end.

Fixpoint score_all (query : string) (i : nat) (choices : list string) : list scored :=
  match choices with
  | [] => []
  | c :: r => (c, partial_ratio query c, i) :: score_all query (S i) r
  end.

(** every choice scored and ranked *)
Definition rank (query : string) (choices : list string) : list scored :=
  fold_right insert_ranked [] (score_all query 0 choices).

(** [process.extract(query, choices, scorer=fuzz.partial_ratio, limit=limit)]
    (no score cutoff: partial_ratio is never negative). *)
Definition extract (query : string) (choices : list string) (limit : nat) : list scored :=
  firstn limit (rank query choices).

(** the inner [for rel_path, disp_name in self.audio_files.items()] loop *)
Fixpoint first_path (display_name : string) (audio_files : Dict.t string) : option string :=
  match audio_files with
  | [] => None
  | (rel_path, disp_name) :: r =>
      if String.eqb disp_name display_name then Some rel_path
      else first_path display_name r
  end.

Definition search (audio_files : Dict.t string) (query : string) (limit : nat)
    : list (string * string * Q) :=
  if String.eqb query "" then []
  else
    let display_names := map snd audio_files in
    let results := extract query display_names limit in
    flat_map (fun '(display_name, score, _) =>
                if negb (Qle_bool score 30) then
                  match first_path display_name audio_files with
                  | Some rel_path => [(rel_path, display_name, score)]
                  | None => []
                  end
                else [])
             results.

(** ** Inline queries ([bot.py], [inline_query_handler], lines 283-336) *)

Record inline_result := {
  res_id : nat;               (* [id=str(idx)] *)
  voice_file_id : string;
  res_title : string
}.

(** the loop building [inline_results]; [idx] counts every search result *)
Fixpoint build_inline (file_id_cache : Dict.t string) (idx : nat)
    (results : list (string * string * Q)) : list inline_result :=
  match results with
  | [] => []
  | (relative_path, display_name, _) :: r =>
      match Dict.get relative_path file_id_cache with
      | None => build_inline file_id_cache (S idx) r
      | Some fid =>
          {| res_id := idx; voice_file_id := fid; res_title := display_name |}
            :: build_inline file_id_cache (S idx) r
      end
  end.

(** The answer sent: the result list and its [cache_time]. *)
Definition inline_query_handler (audio_files file_id_cache : Dict.t string)
    (inline_query : string) : list inline_result * nat :=
  let query := PyStr.strip inline_query in
  let results := search audio_files query 20%nat in
  match results with
  | [] => ([], 1%nat)
  | _ =>
      match build_inline file_id_cache 0 results with
      | [] => ([], 1%nat)
      | inline_results => (firstn 50 inline_results, 300%nat)
      end
  end.

End Search.

(** ** Upload pipeline ([bot.py], [cmd_upload], lines 175-280) *)
Module Upload.
Local Open Scope nat_scope.

(** texts sent with [message.answer] *)
Inductive text :=
| TStarting
| TProgress (done_ total uploaded skipped errors : nat)
| TPause (retry_after : nat)
| TSummary (total uploaded skipped errors : nat).

(** calls to the Telegram transport *)
Inductive call :=
| AnswerVoice (relative_path : string)   (* [message.answer_voice(FSInputFile(...))] *)
| DeleteMessage (relative_path : string) (* [sent_message.delete()] *)
| AnswerText (t : text).                  (* [message.answer(...)] *)

(** what a transport call does: returns (for [answer_voice], the new
    message's [voice.file_id]), raises [TelegramRetryAfter], or raises
    any other exception *)
Inductive reply :=
| ROk (file_id : string)
| RRetryAfter (retry_after : nat)
| RError.

Inductive event :=
| ECall (c : call)
| ESleep (secs : nat)                  (* [await asyncio.sleep(secs)] *)
| ESave (saved : Dict.t string).       (* [save_file_id_cache(file_id_cache)] *)

Inductive exn :=
| TelegramRetryAfter (retry_after : nat)
| OtherError.

(** the global [file_id_cache], the cache file, the locals [uploaded],
    [skipped], [errors] of [cmd_upload], the number of transport calls made
    so far and the trace of events (newest first) *)
Record state := mkState {
  file_id_cache : Dict.t string;
  disk : cache_file;
  uploaded : nat;
  skipped : nat;
  errors : nat;
  clock : nat;
  trace : list event
}.

Inductive result (A : Type) := Ok (a : A) | Raised (e : exn).
Arguments Ok {A} a.
Arguments Raised {A} e.

(** state and exceptions *)
Definition M (A : Type) := state -> result A * state.

Definition ret {A} (a : A) : M A := fun s => (Ok a, s).
Definition bind {A B} (m : M A) (k : A -> M B) : M B :=
  fun s => match m s with
           | (Ok a, s') => k a s'
           | (Raised e, s') => (Raised e, s')
           end.
Definition raise {A} (e : exn) : M A := fun s => (Raised e, s).
(** [try: m except ...: h] *)
Definition try_except {A} (m : M A) (h : exn -> M A) : M A :=
  fun s => match m s with
           | (Ok a, s') => (Ok a, s')
           | (Raised e, s') => h e s'
           end.
Definition gets {A} (f : state -> A) : M A := fun s => (Ok (f s), s).
Definition modify (f : state -> state) : M unit := fun s => (Ok tt, f s).

Local Notation "x <- m ;; k" := (bind m (fun x => k))
  (at level 61, m at next level, right associativity).
Local Notation "m ;; k" := (bind m (fun _ => k)) (at level 61, right associativity).

Definition set_cache (k v : string) (s : state) : state :=
  mkState (Dict.set k v (file_id_cache s)) (disk s) (uploaded s) (skipped s)
          (errors s) (clock s) (trace s).
Definition incr_uploaded (s : state) : state :=
  mkState (file_id_cache s) (disk s) (S (uploaded s)) (skipped s) (errors s)
          (clock s) (trace s).
Definition incr_skipped (s : state) : state :=
  mkState (file_id_cache s) (disk s) (uploaded s) (S (skipped s)) (errors s)
          (clock s) (trace s).
Definition incr_errors (s : state) : state :=
  mkState (file_id_cache s) (disk s) (uploaded s) (skipped s) (S (errors s))
          (clock s) (trace s).
Definition reset_counters (s : state) : state :=
  mkState (file_id_cache s) (disk s) 0 0 0 (clock s) (trace s).
Definition emit (e : event) (s : state) : state :=
  mkState (file_id_cache s) (disk s) (uploaded s) (skipped s) (errors s)
          (clock s) (e :: trace s).

Section Run.

(** The transport: the reply to a call, given how many calls came before. *)
Variable transport : nat -> call -> reply.

Definition tcall (c : call) : M string :=
  fun s =>
    let s' := mkState (file_id_cache s) (disk s) (uploaded s) (skipped s)
                      (errors s) (S (clock s)) (ECall c :: trace s) in
    match transport (clock s) c with
    | ROk fid => (Ok fid, s')
    | RRetryAfter n => (Raised (TelegramRetryAfter n), s')
    | RError => (Raised OtherError, s')
    end.

Definition sleep (secs : nat) : M unit := modify (emit (ESleep secs)).

Definition save : M unit :=
  fun s =>
    let c := file_id_cache s in
    (Ok tt, mkState c (save_file_id_cache c (disk s)) (uploaded s) (skipped s)
                    (errors s) (clock s) (ESave c :: trace s)).

(** [try: m except TelegramRetryAfter: logger.warning(...)] *)
Definition ignore_retry_after (m : M unit) : M unit :=
  try_except m (fun e => match e with
                         | TelegramRetryAfter _ => ret tt
                         | OtherError => raise OtherError
                         end).

Definition max_retries := 3.

(** the [try] block of one attempt (lines 201-230) *)
Definition upload_once (total_files : nat) (relative_path : string) : M unit :=
  fid <- tcall (AnswerVoice relative_path) ;;
  modify (set_cache relative_path fid) ;;
  modify incr_uploaded ;;
  _ <- tcall (DeleteMessage relative_path) ;;
  sleep 1 ;;
  s <- gets (fun s => s) ;;
  if Nat.eqb (Nat.modulo (uploaded s) 10) 0 then
    save ;;
    ignore_retry_after
      (_ <- tcall (AnswerText (TProgress (uploaded s + skipped s) total_files
                                         (uploaded s) (skipped s) (errors s))) ;;
       ret tt)
  else ret tt.

(** the two [except] clauses (lines 232-254) *)
Definition on_failure (e : exn) : M unit :=
  match e with
  | TelegramRetryAfter retry_after =>
      ignore_retry_after (_ <- tcall (AnswerText (TPause retry_after)) ;; ret tt) ;;
      sleep (retry_after + 2)
  | OtherError =>
      modify incr_errors ;;
      sleep 1
  end.

(** [while retry_count < max_retries: ...]; every iteration that does not
    [break] increments [retry_count], so [fuel = max_retries] iterations
    are enough.  Returns the final [retry_count]. *)
Fixpoint retry_loop (fuel total_files : nat) (relative_path : string)
    (retry_count : nat) : M nat :=
  match fuel with
  | O => ret retry_count
  | S fuel' =>
      if Nat.ltb retry_count max_retries then
        ok <- try_except (upload_once total_files relative_path ;; ret true)
                         (fun e => on_failure e ;; ret false) ;;
        if ok then ret retry_count
        else retry_loop fuel' total_files relative_path (S retry_count)
      else ret retry_count
  end.

(** one iteration of [for relative_path, display_name in all_files.items()]
    (the final [logger.error] is not modelled) *)
Definition process_entry (total_files : nat) (relative_path : string) : M unit :=
  c <- gets file_id_cache ;;
  if Dict.mem relative_path c then modify incr_skipped
  else _ <- retry_loop max_retries total_files relative_path 0 ;; ret tt.

Fixpoint process_all (total_files : nat) (paths : list string) : M unit :=
  match paths with
  | [] => ret tt
  | p :: r => process_entry total_files p ;; process_all total_files r
  end.

(** lines 262-280 *)
Definition final_summary (total_files : nat) : M unit :=
  s <- gets (fun s => s) ;;
  let msg := TSummary total_files (uploaded s) (skipped s) (errors s) in
  try_except (_ <- tcall (AnswerText msg) ;; ret tt)
    (fun e => match e with
              | TelegramRetryAfter retry_after =>
                  sleep retry_after ;;
                  _ <- tcall (AnswerText msg) ;; ret tt
              | OtherError => raise OtherError
              end).

(** [cmd_upload]: [admin] is [is_admin(message.from_user.id)], [all_files]
    is [audio_manager.get_all_files()]. *)
Definition cmd_upload (admin : bool) (all_files : Dict.t string) : M unit :=
  if negb admin then ret tt
  else
    _ <- tcall (AnswerText TStarting) ;;
    modify reset_counters ;;
    let total_files := length all_files in
    process_all total_files (Dict.keys all_files) ;;
    save ;;
    final_summary total_files.

End Run.

(** counting events of a trace *)
Definition is_call (c : call) (e : event) : bool :=
  match e, c with
  | ECall (AnswerVoice p), AnswerVoice q => String.eqb p q
  | ECall (DeleteMessage p), DeleteMessage q => String.eqb p q
  | _, _ => false
  end.
Definition count_voice (p : string) (tr : list event) : nat :=
  length (filter (is_call (AnswerVoice p)) tr).
Definition is_sleep (e : event) : bool := match e with ESleep _ => true | _ => false end.
Definition is_save (e : event) : bool := match e with ESave _ => true | _ => false end.
Definition count_sleeps (tr : list event) : nat := length (filter is_sleep tr).
Definition count_saves (tr : list event) : nat := length (filter is_save tr).

End Upload.

Open Scope nat_scope.

(** ** Category statistics ([AudioManager.get_stats_by_category], lines 84-90) *)

(** [relative_path.split(os.sep)[0]] *)
Definition category_of (sep : ascii) (relative_path : string) : string :=
  hd EmptyString (PyStr.split sep relative_path).

(** [stats[category] = stats.get(category, 0) + 1] over the catalog keys *)
Definition get_stats_by_category (sep : ascii) (audio_files : Dict.t string) : Dict.t nat :=
  fold_left (fun stats relative_path =>
               let category := category_of sep relative_path in
               Dict.set category
                 ((match Dict.get category stats with Some n => n | None => 0 end) + 1)%nat
                 stats)
            (Dict.keys audio_files) [].

(** ** Category listings ([bot.py], [send_category_sounds], lines 104-144) *)

(** [s.startswith(prefix)] *)
Definition startswith (prefix s : string) : bool := String.prefix prefix s.

(** [category_files]: the entries of [audio_manager.get_all_files()] (a
    copy of the catalog) whose path starts with [category + '/'] or with
    [category + '\\'] *)
Definition category_files (category : string) (all_files : Dict.t string)
    : list (string * string) :=
  filter (fun '(path, _) => startswith (category ++ "/") path
                            || startswith (category ++ "\") path)
         all_files.

(** ** Statistics message ([bot.py], [cmd_stats], lines 147-172) *)

(** Texts are lists of Unicode code points, as Python's [len] and slices
    count them; [cp s] are the code points of an ASCII string. *)
Definition cp (s : string) : list nat := map nat_of_ascii (list_ascii_of_string s).

(** [str(n)] *)
Definition str_int (n : nat) : string := NilZero.string_of_uint (Nat.to_uint n).

(** [sum(1 for path in file_id_cache.keys() if path.startswith(category))] *)
Definition cached_in_cat (category : string) (file_id_cache : Dict.t string) : nat :=
  length (filter (fun path => startswith category path) (Dict.keys file_id_cache)).

(** [sorted(category_stats.items())]: the keys are distinct, so the pairs
    are ordered by key, compared code point by code point *)
Fixpoint insert_item (x : string * nat) (l : list (string * nat)) : list (string * nat) :=
  match l with
  | [] => [x]
  | y :: r =>
      match String.compare (fst x) (fst y) with
      | Gt => y :: insert_item x r
      | _ => x :: y :: r
      end
  end.
Definition sorted_items (stats : Dict.t nat) : list (string * nat) :=
  fold_right insert_item [] stats.

(** [f"• {category.title()}: {count} ({cached_in_cat} cached)\n"] *)
Definition stats_line (file_id_cache : Dict.t string) (item : string * nat) : list nat :=
  let '(category, count) := item in
  concat [[8226; 32]; cp (PyStr.title category); cp ": "; cp (str_int count);
          cp " ("; cp (str_int (cached_in_cat category file_id_cache)); cp " cached)"; [10]].

(** the text before the safety check *)
Definition stats_text (sep : ascii) (audio_files file_id_cache : Dict.t string) : list nat :=
  concat [[128202]; cp " Statistics"; [10; 10];
          cp "Total: "; cp (str_int (length audio_files)); cp " files"; [10];
          cp "Cached: "; cp (str_int (length file_id_cache)); cp " files"; [10; 10];
          cp "By category:"; [10]]
  ++ concat (map (stats_line file_id_cache) (sorted_items (get_stats_by_category sep audio_files))).

(** [stats_text[:3900] + "\n\n... (truncated)"] when [len(stats_text) > 4000] *)
Definition truncated_marker : list nat := app [10; 10] (cp "... (truncated)").
Definition truncate_stats (stats_text : list nat) : list nat :=
  if Nat.ltb 4000 (length stats_text)
  then app (firstn 3900 stats_text) truncated_marker
  else stats_text.

(** [cmd_stats]: [None] when the sender is not the admin (no answer),
    otherwise the text sent with [message.answer] *)
Definition cmd_stats (admin : bool) (sep : ascii) (audio_files file_id_cache : Dict.t string)
    : option (list nat) :=
  if negb admin then None
  else Some (truncate_stats (stats_text sep audio_files file_id_cache)).

(** ** The restart loop ([bot.py], [main], lines 339-414) *)

(** how [dp.start_polling(bot)] ends *)
Inductive polling :=
| PollReturned         (* it returns *)
| PollStopped          (* it raises [KeyboardInterrupt] or [SystemExit] *)
| PollError            (* it raises an [Exception] *)
| PollBaseException.   (* it raises another [BaseException] *)

(** how one iteration of [while restart_count < max_restarts] goes: an
    [Exception] during start-up (loading the catalog, starting the health
    server), another [BaseException] during start-up (not caught by
    [except Exception]), or polling started *)
Inductive iteration :=
| StartupError
| StartupBaseException
| Polled (p : polling).

Inductive mevent :=
| MStart               (* [_load_audio_files()] and the server start-up *)
| MPoll                (* [await dp.start_polling(bot)] *)
| MSleep (secs : nat)  (* [await asyncio.sleep(secs)] *)
| MCleanup.            (* the [finally] block: session close and runner cleanup *)

(** how [main] leaves the loop: [restart_count] reached [max_restarts],
    [break] on a stop signal, an exception propagating out of [main], or
    (an artefact of the finite list of iterations) still running *)
Inductive main_exit := Exhausted | Stopped | Propagated | Running.

Definition max_restarts := 5%nat.

(** the events of [main] in order, given the outcome of each iteration *)
Fixpoint main_loop (outcomes : list iteration) (restart_count : nat) : list mevent * main_exit :=
  if Nat.ltb restart_count max_restarts then
    match outcomes with
    | [] => ([], Running)
    | StartupError :: r =>
        let '(ev, ex) := main_loop r (S restart_count) in (MStart :: MSleep 5 :: ev, ex)
    | StartupBaseException :: _ => ([MStart], Propagated)
    | Polled PollReturned :: r =>
        let '(ev, ex) := main_loop r restart_count in (MStart :: MPoll :: MCleanup :: ev, ex)
    | Polled PollStopped :: _ => ([MStart; MPoll; MCleanup], Stopped)
    | Polled PollError :: r =>
        let '(ev, ex) := main_loop r (S restart_count) in
        (MStart :: MPoll :: MSleep 5 :: MCleanup :: ev, ex)
    | Polled PollBaseException :: _ => ([MStart; MPoll; MCleanup], Propagated)
    end
  else ([], Exhausted).

Close Scope nat_scope.

(** * Properties *)

Example display_name_scenario1 :
  display_name "protoss/zealot/attack.ogg" "attack.ogg" = "[Protoss/Zealot] attack".
Proof. reflexivity. Qed.
Example display_name_scenario2 : display_name "theme.wav" "theme.wav" = "theme".
Proof. reflexivity. Qed.

(** ** Strings *)
Module StrFacts.

(** [c in s] *)
Fixpoint contains (c : ascii) (s : string) : bool :=
  match s with
  | EmptyString => false
  | String x r => Ascii.eqb x c || contains c r
  end.

Lemma contains_app c x y : contains c (x ++ y) = contains c x || contains c y.
Proof. induction x as [|a x IH]; simpl; [reflexivity|]. rewrite IH, orb_assoc. reflexivity. Qed.

Lemma replace_app a b x y :
  PyStr.replace a b (x ++ y) = PyStr.replace a b x ++ PyStr.replace a b y.
Proof. induction x as [|c x IH]; simpl; [reflexivity|]. now rewrite IH. Qed.

Lemma replace_cons a b c r :
  PyStr.replace a b (String c r) = String (if Ascii.eqb c a then b else c) (PyStr.replace a b r).
Proof. reflexivity. Qed.

Lemma replace_free a b x : contains a x = false -> PyStr.replace a b x = x.
Proof.
  induction x as [|c x IH]; simpl; [reflexivity|].
  intros H. apply orb_false_iff in H as [H1 H2]. rewrite H1, IH by exact H2. reflexivity.
Qed.

Lemma replace_idem a b x :
  a <> b -> PyStr.replace a b (PyStr.replace a b x) = PyStr.replace a b x.
Proof.
  intros Hab. induction x as [|c x IH]; simpl; [reflexivity|]. rewrite IH. f_equal.
  destruct (Ascii.eqb c a) eqn:E.
  - destruct (Ascii.eqb b a) eqn:E'; [|reflexivity].
    apply Ascii.eqb_eq in E'. congruence.
  - now rewrite E.
Qed.

Lemma replace_clears a b x : a <> b -> contains a (PyStr.replace a b x) = false.
Proof.
  intros Hab. induction x as [|c x IH]; simpl; [reflexivity|]. rewrite IH, orb_false_r.
  destruct (Ascii.eqb c a) eqn:E.
  - apply Ascii.eqb_neq. congruence.
  - exact E.
Qed.

Lemma contains_cons c x r : contains c (String x r) = Ascii.eqb x c || contains c r.
Proof. reflexivity. Qed.

Lemma contains_join_other c s l :
  c <> s -> Forall (fun x => contains c x = false) l ->
  contains c (PyStr.join (String s EmptyString) l) = false.
Proof.
  intros Hcs. induction l as [|x [|y r] IH]; intros Hf; [reflexivity| |].
  - now inversion Hf.
  - inversion Hf; subst. change (PyStr.join (String s "") (x :: y :: r))
      with (x ++ String s (PyStr.join (String s "") (y :: r))).
    rewrite contains_app, contains_cons, H1, IH by assumption.
    rewrite orb_false_r. simpl. apply Ascii.eqb_neq. congruence.
Qed.

Lemma split_free c x : contains c x = false -> PyStr.split c x = [x].
Proof.
  induction x as [|a x IH]; simpl; [reflexivity|].
  intros H. apply orb_false_iff in H as [H1 H2]. rewrite H1, IH by exact H2.
  reflexivity.
Qed.

Lemma split_sep c x y :
  contains c x = false -> PyStr.split c (x ++ String c y) = x :: PyStr.split c y.
Proof.
  induction x as [|a x IH]; simpl.
  - now rewrite Ascii.eqb_refl.
  - intros H. apply orb_false_iff in H as [H1 H2].
    rewrite H1, IH by exact H2. reflexivity.
Qed.

(** [c.join(l).split(c) == l] when no element contains [c] *)
Lemma split_join c l :
  l <> [] -> Forall (fun x => contains c x = false) l ->
  PyStr.split c (PyStr.join (String c EmptyString) l) = l.
Proof.
  induction l as [|x [|y r] IH]; intros Hne Hf; [congruence| |].
  - inversion Hf; subst. simpl. now apply split_free.
  - inversion Hf; subst. change (PyStr.join (String c "") (x :: y :: r))
      with (x ++ String c (PyStr.join (String c "") (y :: r))).
    rewrite split_sep by assumption. rewrite IH; [reflexivity|discriminate|assumption].
Qed.

Lemma replace_join a b l :
  Forall (fun x => contains a x = false) l ->
  PyStr.replace a b (PyStr.join (String a EmptyString) l) = PyStr.join (String b EmptyString) l.
Proof.
  induction l as [|x [|y r] IH]; intros Hf; [reflexivity| |].
  - inversion Hf; subst. simpl. now apply replace_free.
  - inversion Hf; subst. change (PyStr.join (String a "") (x :: y :: r))
      with (x ++ String a (PyStr.join (String a "") (y :: r))).
    change (PyStr.join (String b "") (x :: y :: r))
      with (x ++ String b (PyStr.join (String b "") (y :: r))).
    rewrite replace_app, replace_cons, Ascii.eqb_refl, IH, replace_free by assumption.
    reflexivity.
Qed.

Lemma append_nil_r x : x ++ EmptyString = x.
Proof. induction x as [|a x IH]; simpl; [reflexivity|]. now rewrite IH. Qed.

Lemma rsplit1_app c x y p :
  PyStr.rsplit1 c y = Some p -> PyStr.rsplit1 c (x ++ y) = Some (x ++ p).
Proof. induction x as [|a x IH]; simpl; intros H; [exact H|]. now rewrite (IH H). Qed.

Lemma rsplit_head_ext base ext :
  ext = ".wav" \/ ext = ".ogg" -> PyStr.rsplit_head "."%char (base ++ ext) = base.
Proof.
  intros Hext. unfold PyStr.rsplit_head.
  rewrite (rsplit1_app _ base ext EmptyString) by (destruct Hext; subst; reflexivity).
  now rewrite append_nil_r.
Qed.

End StrFacts.

(** ** Dicts *)
Module DictFacts.

Lemma get_In {V} k (d : Dict.t V) : Dict.mem k d = true <-> In k (Dict.keys d).
Proof.
  unfold Dict.mem. induction d as [|[k' v'] r IH]; simpl.
  - split; [discriminate|tauto].
  - destruct (String.eqb k k') eqn:E.
    + apply String.eqb_eq in E. subst. tauto.
    + apply String.eqb_neq in E. rewrite IH. split; [tauto|]. intros [H|H]; [congruence|exact H].
Qed.

Lemma mem_false {V} k (d : Dict.t V) : Dict.mem k d = false <-> ~ In k (Dict.keys d).
Proof. rewrite <- get_In. destruct (Dict.mem k d); split; congruence. Qed.

Lemma set_fresh {V} k (v : V) d : ~ In k (Dict.keys d) -> Dict.set k v d = app d [(k, v)].
Proof.
  induction d as [|[k' v'] r IH]; simpl; intros H; [reflexivity|].
  destruct (String.eqb k k') eqn:E.
  - apply String.eqb_eq in E. subst. tauto.
  - rewrite IH by tauto. reflexivity.
Qed.

Lemma keys_set {V} k (v : V) d x :
  In x (Dict.keys (Dict.set k v d)) <-> x = k \/ In x (Dict.keys d).
Proof.
  induction d as [|[k' v'] r IH]; simpl; [intuition congruence|].
  destruct (String.eqb k k') eqn:E; simpl.
  - apply String.eqb_eq in E. subst. intuition congruence.
  - rewrite IH. intuition congruence.
Qed.

Lemma keys_set_same {V} k (v : V) d :
  In k (Dict.keys d) -> Dict.keys (Dict.set k v d) = Dict.keys d.
Proof.
  induction d as [|[k' v'] r IH]; simpl; intros H; [contradiction|].
  destruct (String.eqb k k') eqn:E; simpl; [reflexivity|].
  apply String.eqb_neq in E. rewrite IH; [reflexivity|]. destruct H; [congruence|assumption].
Qed.

Lemma NoDup_set {V} k (v : V) d : NoDup (Dict.keys d) -> NoDup (Dict.keys (Dict.set k v d)).
Proof.
  intros H. destruct (in_dec string_dec k (Dict.keys d)) as [Hin|Hin].
  - now rewrite keys_set_same.
  - rewrite set_fresh by exact Hin. unfold Dict.keys. rewrite map_app. simpl.
    apply NoDup_app; [exact H|constructor; [intros []|constructor]|].
    intros x Hx [Hy|[]]. simpl in Hy. subst. contradiction.
Qed.

Lemma get_set_other {V} k k' (v : V) d :
  k <> k' -> Dict.get k (Dict.set k' v d) = Dict.get k d.
Proof.
  intros Hne. induction d as [|[k'' v''] r IH]; simpl.
  - destruct (String.eqb k k') eqn:E; [apply String.eqb_eq in E; congruence|reflexivity].
  - destruct (String.eqb k' k'') eqn:E1; simpl.
    + apply String.eqb_eq in E1. subst.
      destruct (String.eqb k k'') eqn:E2; [apply String.eqb_eq in E2; congruence|reflexivity].
    + rewrite IH. reflexivity.
Qed.

Lemma get_set {V} k k' (v : V) d :
  Dict.get k (Dict.set k' v d) = if String.eqb k k' then Some v else Dict.get k d.
Proof.
  destruct (String.eqb k k') eqn:E; [|apply get_set_other, String.eqb_neq, E].
  apply String.eqb_eq in E. subst.
  induction d as [|[k'' v''] r IH]; simpl; [now rewrite String.eqb_refl|].
  destruct (String.eqb k' k'') eqn:E1; simpl; rewrite E1; [reflexivity|exact IH].
Qed.

Lemma mem_get {V} k (d : Dict.t V) : Dict.mem k d = true <-> Dict.get k d <> None.
Proof. unfold Dict.mem. destruct (Dict.get k d); split; congruence. Qed.

Lemma mem_set {V} k k' (v : V) d : Dict.mem k (Dict.set k' v d) = (String.eqb k k' || Dict.mem k d).
Proof.
  destruct (Dict.mem k (Dict.set k' v d)) eqn:E; symmetry.
  - apply get_In, keys_set in E. destruct E as [E|E].
    + subst. now rewrite String.eqb_refl.
    + apply get_In in E. now rewrite E, orb_true_r.
  - apply mem_false in E. rewrite keys_set in E. apply orb_false_iff. split.
    + apply String.eqb_neq. tauto.
    + apply mem_false. tauto.
Qed.

End DictFacts.

(** ** Cache normalization *)
Module CacheFacts.
Import StrFacts DictFacts.

Definition normalize_step (acc : Dict.t string) (kv : string * string) : Dict.t string :=
  let '(path, file_id) := kv in Dict.set (PyStr.replace backslash slash path) file_id acc.

Lemma normalize_cache_fold M : normalize_cache M = fold_left normalize_step M [].
Proof. reflexivity. Qed.

Lemma backslash_not_slash : backslash <> slash.
Proof. discriminate. Qed.

Definition normal (acc : Dict.t string) : Prop :=
  NoDup (Dict.keys acc) /\ Forall (fun k => contains backslash k = false) (Dict.keys acc).

Lemma normal_fold M acc : normal acc -> normal (fold_left normalize_step M acc).
Proof.
  revert acc. induction M as [|[k v] r IH]; intros acc [Hnd Hf]; simpl; [now split|].
  apply IH. split; [now apply NoDup_set|].
  apply Forall_forall. intros x Hx. apply keys_set in Hx as [Hx|Hx].
  - subst. apply replace_clears, backslash_not_slash.
  - eapply Forall_forall in Hf; eassumption.
Qed.

Lemma fold_normal_id d acc :
  NoDup (Dict.keys (app acc d)) -> Forall (fun k => contains backslash k = false) (Dict.keys d) ->
  fold_left normalize_step d acc = app acc d.
Proof.
  revert acc. induction d as [|[k v] r IH]; intros acc Hnd Hf; simpl.
  - now rewrite app_nil_r.
  - inversion Hf as [|? ? Hk Hr]; subst.
    rewrite replace_free by exact Hk.
    unfold Dict.keys in Hnd. rewrite map_app in Hnd. simpl in Hnd.
    rewrite set_fresh.
    + rewrite IH; [now rewrite <- app_assoc|unfold Dict.keys; rewrite !map_app, <- app_assoc; exact Hnd|exact Hr].
    + intros Hin. apply NoDup_remove_2 in Hnd. apply Hnd. apply in_or_app. now left.
Qed.

Lemma normalize_cache_idem M : normalize_cache (normalize_cache M) = normalize_cache M.
Proof.
  destruct (normal_fold M [] (conj (NoDup_nil _) (Forall_nil _))) as [Hnd Hf].
  rewrite !normalize_cache_fold. rewrite fold_normal_id; [reflexivity|exact Hnd|exact Hf].
Qed.

End CacheFacts.

(** [C3] Handle cache round-trip: saving a mapping [M] writes the
    normalization of [M] (every backslash of every key replaced by a forward
    slash, later keys overwriting earlier ones that normalize alike), whose
    keys carry no backslash, and loading right after saving yields exactly
    that normalization: load re-applies it and it is idempotent. *)
Theorem cache_load_save_roundtrip (M : Dict.t string) (f : cache_file) :
  save_file_id_cache M f = Some (normalize_cache M) /\
  Forall (fun k => StrFacts.contains backslash k = false) (Dict.keys (normalize_cache M)) /\
  load_file_id_cache (save_file_id_cache M f) = normalize_cache M.
Proof.
  split; [reflexivity|]. split.
  - apply (CacheFacts.normal_fold M [] (conj (NoDup_nil _) (Forall_nil _))).
  - apply CacheFacts.normalize_cache_idem.
Qed.

(** ** Display names *)

(** [C4] Label derivation.  The display name is a function of the relative
    path (and of the file name, which is its last segment).  Both [/] and
    [\] count as separators: for directory segments [ds] and a file
    [base ++ ext] ([ext] is [.wav] or [.ogg]), none containing [/] or [\],
    joined by either separator, the label is [base] when [ds] is empty and
    ["[" ++ title("/".join(ds)) ++ "] " ++ base] otherwise. *)
Theorem display_name_segments (sep : ascii) (ds : list string) (base ext : string) :
  (sep = slash \/ sep = backslash) ->
  (ext = ".wav" \/ ext = ".ogg") ->
  Forall (fun seg => StrFacts.contains slash seg = false /\
                     StrFacts.contains backslash seg = false) (app ds [base]) ->
  display_name (PyStr.join (String sep EmptyString) (app ds [base ++ ext])) (base ++ ext)
  = match ds with
    | [] => base
    | _ => "[" ++ PyStr.title (PyStr.join "/" ds) ++ "] " ++ base
    end.
Proof.
  intros Hsep Hext Hseg.
  assert (Hext' : StrFacts.contains slash ext = false /\ StrFacts.contains backslash ext = false)
    by (destruct Hext; subst; split; reflexivity).
  set (f := base ++ ext).
  assert (Hall : Forall (fun seg => StrFacts.contains slash seg = false /\
                     StrFacts.contains backslash seg = false) (app ds [f])).
  { apply Forall_app in Hseg as [Hds Hb]. apply Forall_app. split; [exact Hds|].
    inversion Hb as [|? ? [Hb1 Hb2] _]; subst. constructor; [|constructor].
    unfold f. rewrite !StrFacts.contains_app, Hb1, Hb2. simpl. tauto. }
  assert (Hrepl : PyStr.replace backslash slash
                    (PyStr.join (String sep EmptyString) (app ds [f]))
                  = PyStr.join "/" (app ds [f])).
  { destruct Hsep; subst.
    - apply StrFacts.replace_free, StrFacts.contains_join_other; [discriminate|].
      eapply Forall_impl; [|exact Hall]. simpl. tauto.
    - apply StrFacts.replace_join. eapply Forall_impl; [|exact Hall]. simpl. tauto. }
  unfold display_name. rewrite Hrepl.
  change "/" with (String slash EmptyString).
  rewrite StrFacts.split_join; [|destruct ds; discriminate|].
  2:{ eapply Forall_impl; [|exact Hall]. simpl. tauto. }
  rewrite length_app, removelast_last, last_last. simpl length.
  unfold f. rewrite StrFacts.rsplit_head_ext by exact Hext.
  destruct ds as [|d ds]; [reflexivity|].
  simpl length. rewrite Nat.add_1_r. reflexivity.
Qed.

(** [C4] counterexample: on a POSIX host a file [a\b.ogg] at the audio root
    has an identifier with a single [/]-segment, yet its label carries a
    bracket prefix, because the backslash is read as a separator. *)
Lemma display_name_backslash_root :
  PyStr.split slash "a\b.ogg" = ["a\b.ogg"] /\
  display_name "a\b.ogg" "a\b.ogg" = "[A] b" /\
  display_name "a\b.ogg" "a\b.ogg" <> PyStr.rsplit_head "."%char "a\b.ogg".
Proof. split; [reflexivity|]. split; [reflexivity|]. vm_compute. discriminate. Qed.

Lemma display_name_segments_witness :
  (slash = slash \/ slash = backslash) /\
  (".ogg" = ".wav" \/ ".ogg" = ".ogg") /\
  Forall (fun seg => StrFacts.contains slash seg = false /\
                     StrFacts.contains backslash seg = false) ["protoss"; "zealot"; "attack"] /\
  display_name (PyStr.join (String slash EmptyString) ["protoss"; "zealot"; "attack" ++ ".ogg"])
               ("attack" ++ ".ogg")
  = "[" ++ PyStr.title (PyStr.join "/" ["protoss"; "zealot"]) ++ "] " ++ "attack".
Proof.
  split; [left; reflexivity|]. split; [right; reflexivity|].
  split; [repeat constructor|].
  apply (display_name_segments slash ["protoss"; "zealot"] "attack" ".ogg").
  - left; reflexivity.
  - right; reflexivity.
  - repeat constructor.
Defined.

(** ** The directory walk *)
Module WalkFacts.
Import StrFacts DictFacts.

(** [file_at cs segs f]: the listing [cs] has, under the directories
    [segs], a regular file [f]. *)
Inductive file_at : list node -> list string -> string -> Prop :=
| fa_here cs f : In (File f) cs -> file_at cs [] f
| fa_sub cs d cs' segs f : In (Dir d cs') cs -> file_at cs' segs f -> file_at cs (d :: segs) f.

(** induction on nodes, with the children of a directory *)
Fixpoint node_rect' (P : node -> Prop) (HF : forall f, P (File f))
    (HD : forall d cs, Forall P cs -> P (Dir d cs)) (n : node) : P n :=
  match n with
  | File f => HF f
  | Dir d cs =>
      HD d cs ((fix go (l : list node) : Forall P l :=
                  match l with
                  | [] => Forall_nil _
                  | c :: r => Forall_cons _ (node_rect' P HF HD c) (go r)
                  end) cs)
  end.

Lemma in_dir_files (f : string) (cs : list node) : In f (dir_files cs) <-> In (File f) cs.
Proof.
  induction cs as [|c cs IH]; simpl; [tauto|].
  rewrite in_app_iff, IH. destruct c; simpl; intuition congruence.
Qed.

Lemma walk_files_iff (here : list string) (cs : list node) (segs : list string) (f : string) :
  In (segs, f) (map (fun f => (here, f)) (dir_files cs)) <-> segs = here /\ In (File f) cs.
Proof.
  rewrite in_map_iff. split.
  - intros [f' [E H]]. inversion E; subst. split; [reflexivity|]. now apply in_dir_files.
  - intros [-> H]. exists f. split; [reflexivity|]. now apply in_dir_files.
Qed.

Lemma walk_children_iff (here : list string) (cs : list node) (segs : list string) (f : string)
  (IH : Forall (fun n => forall here segs f, In (segs, f) (walk_node here n) <->
           match n with
           | File _ => False
           | Dir d cs => exists rest, segs = app here (d :: rest) /\ file_at cs rest f
           end) cs) :
  In (segs, f) (flat_map (walk_node here) cs) <->
  exists d cs' rest, In (Dir d cs') cs /\ segs = app here (d :: rest) /\ file_at cs' rest f.
Proof.
  rewrite in_flat_map. split.
  - intros [c [Hc Hin]]. eapply Forall_forall in IH; [|exact Hc].
    apply IH in Hin. destruct c as [|d cs']; [contradiction|].
    destruct Hin as [rest [-> Hf]]. now exists d, cs', rest.
  - intros [d [cs' [rest [Hc [-> Hf]]]]]. exists (Dir d cs'). split; [exact Hc|].
    eapply Forall_forall in IH; [|exact Hc]. apply IH. now exists rest.
Qed.

Lemma file_at_iff (cs : list node) (segs : list string) (f : string) :
  file_at cs segs f <->
  (segs = [] /\ In (File f) cs) \/
  (exists d cs' rest, In (Dir d cs') cs /\ segs = d :: rest /\ file_at cs' rest f).
Proof.
  split.
  - intros H. inversion H; subst; [now left|right]. eexists _, _, _. eauto.
  - intros [[-> H]|[d [cs' [rest [H [-> Hf]]]]]]; econstructor; eauto.
Qed.

Lemma walk_node_iff n : forall here segs f,
  In (segs, f) (walk_node here n) <->
  match n with
  | File _ => False
  | Dir d cs => exists rest, segs = app here (d :: rest) /\ file_at cs rest f
  end.
Proof.
  induction n as [g|d cs IH] using node_rect'; intros here segs f; simpl; [tauto|].
  rewrite in_app_iff, walk_files_iff, walk_children_iff by exact IH. split.
  - intros [[-> H]|[d' [cs' [rest [Hc [-> Hf]]]]]].
    + exists []. split; [reflexivity|]. now constructor.
    + exists (d' :: rest). rewrite <- app_assoc. split; [reflexivity|]. econstructor; eauto.
  - intros [rest [-> Hf]]. apply file_at_iff in Hf as [[-> H]|[d' [cs' [rest' [Hc [-> Hf]]]]]].
    + now left.
    + right. exists d', cs', rest'. rewrite <- app_assoc. auto.
Qed.

(** the walk lists exactly the files of the tree *)
Lemma walk_root_iff (cs : list node) (segs : list string) (f : string) : In (segs, f) (walk_root cs) <-> file_at cs segs f.
Proof.
  unfold walk_root. rewrite in_app_iff, walk_files_iff, walk_children_iff.
  - rewrite file_at_iff. simpl. reflexivity.
  - apply Forall_forall. intros n _. apply walk_node_iff.
Qed.

Definition catalog_step (sep : string) (acc : Dict.t string) (e : list string * string)
    : Dict.t string :=
  let '(segs, file) := e in
  if recognized file then
    Dict.set (relpath sep segs file) (display_name (relpath sep segs file) file) acc
  else acc.

Lemma build_catalog_fold sep root :
  build_catalog sep (Some root) = fold_left (catalog_step sep) (walk_root root) [].
Proof. reflexivity. Qed.

Lemma fold_catalog_NoDup sep L acc :
  NoDup (Dict.keys acc) -> NoDup (Dict.keys (fold_left (catalog_step sep) L acc)).
Proof.
  revert acc; induction L as [|[segs file] L IH]; intros acc H; simpl; [exact H|].
  apply IH. destruct (recognized file); [now apply NoDup_set|exact H].
Qed.

Lemma fold_catalog_keep sep L acc k :
  Dict.get k acc <> None -> Dict.get k (fold_left (catalog_step sep) L acc) <> None.
Proof.
  revert acc; induction L as [|[segs file] L IH]; intros acc H; simpl; [exact H|].
  apply IH. destruct (recognized file); [|exact H].
  rewrite get_set. destruct (String.eqb _ _); [discriminate|exact H].
Qed.

Lemma fold_catalog_complete sep L acc segs f :
  In (segs, f) L -> recognized f = true ->
  Dict.get (relpath sep segs f) (fold_left (catalog_step sep) L acc) <> None.
Proof.
  revert acc; induction L as [|[segs' file] L IH]; intros acc Hin Hr; simpl; [contradiction|].
  destruct Hin as [E|Hin]; [|now apply IH].
  inversion E; subst. apply fold_catalog_keep. rewrite Hr, get_set, String.eqb_refl.
  discriminate.
Qed.

Lemma fold_catalog_sound sep L acc k v :
  Dict.get k (fold_left (catalog_step sep) L acc) = Some v ->
  Dict.get k acc = Some v \/
  exists segs f, In (segs, f) L /\ recognized f = true /\
                 k = relpath sep segs f /\ v = display_name k f.
Proof.
  revert acc; induction L as [|[segs file] L IH]; intros acc H; simpl in *; [now left|].
  apply IH in H as [H|[segs' [f' [Hin H]]]]; [|right; eauto 6].
  destruct (recognized file) eqn:Hr; [|now left].
  rewrite get_set in H. destruct (String.eqb k (relpath sep segs file)) eqn:E; [|now left].
  apply String.eqb_eq in E. inversion H; subst. right. exists segs, file. auto.
Qed.

Lemma relpath_inj sep segs f segs' f' :
  Forall (fun x => contains sep x = false) (app segs [f]) ->
  Forall (fun x => contains sep x = false) (app segs' [f']) ->
  relpath (String sep EmptyString) segs f = relpath (String sep EmptyString) segs' f' ->
  segs = segs' /\ f = f'.
Proof.
  unfold relpath. intros H1 H2 E.
  apply (f_equal (PyStr.split sep)) in E.
  rewrite !split_join in E by (assumption || (destruct segs; discriminate)
                                           || (destruct segs'; discriminate)).
  now apply app_inj_tail in E.
Qed.

(** the name condition of [catalog_one_entry_per_file], checked on the walk *)
Lemma names_free_of_walk sep root :
  forallb (fun '(segs, f) => forallb (fun x => negb (contains sep x)) (app segs [f]))
          (walk_root root) = true ->
  forall segs f, file_at root segs f ->
    Forall (fun x => contains sep x = false) (app segs [f]).
Proof.
  intros H segs f Hf. apply walk_root_iff in Hf.
  rewrite forallb_forall in H. specialize (H _ Hf). simpl in H.
  rewrite forallb_forall in H. apply Forall_forall. intros x Hx.
  apply negb_true_iff, H, Hx.
Qed.

End WalkFacts.

(** [C5] Catalog keys.  Let every file and directory name contain no
    [os.sep].  The catalog built by the walk has one entry per file with a
    [.wav] or [.ogg] name (case-sensitive): its key is the root-relative path joined with
    [os.sep], its value that key's display name; there are no other keys,
    keys are unique and distinct files get distinct keys.  On a POSIX host
    ([os.sep] is [/]) the keys use forward slashes. *)
Theorem catalog_one_entry_per_file (sep : ascii) (root : list node) :
  (forall segs f, WalkFacts.file_at root segs f ->
     Forall (fun x => StrFacts.contains sep x = false) (app segs [f])) ->
  let os_sep := String sep EmptyString in
  let cat := build_catalog os_sep (Some root) in
  NoDup (Dict.keys cat) /\
  (forall segs f, WalkFacts.file_at root segs f -> recognized f = true ->
     Dict.get (relpath os_sep segs f) cat = Some (display_name (relpath os_sep segs f) f)) /\
  (forall k, In k (Dict.keys cat) ->
     exists segs f, WalkFacts.file_at root segs f /\ recognized f = true /\
                    k = relpath os_sep segs f) /\
  (forall segs f segs' f', WalkFacts.file_at root segs f -> WalkFacts.file_at root segs' f' ->
     relpath os_sep segs f = relpath os_sep segs' f' -> segs = segs' /\ f = f').
Proof.
  intros Hwf os_sep cat. subst os_sep cat. rewrite WalkFacts.build_catalog_fold.
  split; [apply WalkFacts.fold_catalog_NoDup, NoDup_nil|].
  split; [|split].
  - intros segs f Hf Hr.
    pose proof (WalkFacts.fold_catalog_complete (String sep "") _ [] segs f
                  (proj2 (WalkFacts.walk_root_iff _ _ _) Hf) Hr) as Hc.
    destruct (Dict.get _ _) as [v|] eqn:Hv; [|congruence].
    apply WalkFacts.fold_catalog_sound in Hv as [Hv|[segs' [f' [Hin [_ [Hk ->]]]]]];
      [discriminate|].
    apply WalkFacts.walk_root_iff in Hin.
    destruct (WalkFacts.relpath_inj sep segs f segs' f' (Hwf _ _ Hf) (Hwf _ _ Hin) Hk)
      as [-> ->].
    reflexivity.
  - intros k Hk. apply DictFacts.get_In, DictFacts.mem_get in Hk.
    destruct (Dict.get _ _) as [v|] eqn:Hv; [|congruence].
    apply WalkFacts.fold_catalog_sound in Hv as [Hv|[segs [f [Hin [Hr [Hk' _]]]]]];
      [discriminate|].
    exists segs, f. split; [now apply WalkFacts.walk_root_iff|]. auto.
  - intros segs f segs' f' H1 H2. apply WalkFacts.relpath_inj; auto.
Qed.

Definition sample_tree : list node := [Dir "protoss" [Dir "zealot" [File "attack.ogg"]]].

Lemma catalog_one_entry_per_file_witness :
  (forall segs f, WalkFacts.file_at sample_tree segs f ->
     Forall (fun x => StrFacts.contains slash x = false) (app segs [f])) /\
  (let os_sep := String slash EmptyString in
   let cat := build_catalog os_sep (Some sample_tree) in
   NoDup (Dict.keys cat) /\
   (forall segs f, WalkFacts.file_at sample_tree segs f -> recognized f = true ->
      Dict.get (relpath os_sep segs f) cat = Some (display_name (relpath os_sep segs f) f)) /\
   (forall k, In k (Dict.keys cat) ->
      exists segs f, WalkFacts.file_at sample_tree segs f /\ recognized f = true /\
                     k = relpath os_sep segs f) /\
   (forall segs f segs' f', WalkFacts.file_at sample_tree segs f ->
      WalkFacts.file_at sample_tree segs' f' ->
      relpath os_sep segs f = relpath os_sep segs' f' -> segs = segs' /\ f = f')).
Proof.
  split.
  - apply WalkFacts.names_free_of_walk. reflexivity.
  - apply catalog_one_entry_per_file. apply WalkFacts.names_free_of_walk. reflexivity.
Defined.

(** [C5] counterexample: on Windows ([os.sep] is [\]) the key of
    [protoss/zealot/attack.ogg] is [protoss\zealot\attack.ogg]; the
    forward-slash path is not a key (the display name still uses [/]). *)
Lemma catalog_windows_keys :
  build_catalog "\" (Some sample_tree)
  = [("protoss\zealot\attack.ogg", "[Protoss/Zealot] attack")] /\
  Dict.mem "protoss/zealot/attack.ogg" (build_catalog "\" (Some sample_tree)) = false.
Proof. split; reflexivity. Qed.

(** ** Fuzzy search *)
Module SearchFacts.
Import DictFacts.

Section WithScorer.
Variable partial_ratio : string -> string -> Q.

(** [b] does not rank strictly before [a] *)
Definition not_after (a b : scored) : Prop := ranks_before b a = false.

Lemma qle_false x y : Qle_bool x y = false <-> (y < x)%Q.
Proof.
  split.
  - intros H. apply Qnot_le_lt. intros Hle. apply Qle_bool_iff in Hle. congruence.
  - intros H. apply not_true_iff_false. intros Hle. apply Qle_bool_iff in Hle.
    exact (Qlt_not_le _ _ H Hle).
Qed.

Lemma ranks_before_iff (a b : scored) :
  ranks_before a b = true <->
  let '(_, sa, ia) := a in let '(_, sb, ib) := b in
  (sb < sa)%Q \/ ((sa == sb)%Q /\ (ia < ib)%nat).
Proof.
  destruct a as [[ca sa] ia], b as [[cb sb] ib]. unfold ranks_before.
  rewrite orb_true_iff, andb_true_iff, negb_true_iff, Qeq_bool_iff, Nat.ltb_lt, qle_false.
  reflexivity.
Qed.

Lemma ranks_before_asym a b : ranks_before a b = true -> ranks_before b a = false.
Proof.
  intros H. apply not_true_iff_false. intros H'.
  apply ranks_before_iff in H, H'. destruct a as [[? sa] ia], b as [[? sb] ib].
  destruct H as [H|[H1 H2]], H' as [H'|[H1' H2']].
  - apply (Qlt_irrefl sa). now apply Qlt_trans with sb.
  - rewrite H1' in H. now apply Qlt_irrefl in H.
  - rewrite H1 in H'. now apply Qlt_irrefl in H'.
  - lia.
Qed.

Lemma ranks_before_trans a b c :
  ranks_before a b = true -> ranks_before b c = true -> ranks_before a c = true.
Proof.
  intros H H'. apply ranks_before_iff in H, H'. apply ranks_before_iff.
  destruct a as [[? sa] ia], b as [[? sb] ib], c as [[? sc] ic].
  destruct H as [H|[H1 H2]], H' as [H'|[H1' H2']].
  - left. now apply Qlt_trans with sb.
  - left. now rewrite <- H1'.
  - left. now rewrite H1.
  - right. split; [now rewrite H1|lia].
Qed.

Lemma in_insert_ranked x y l : In y (insert_ranked x l) <-> y = x \/ In y l.
Proof.
  induction l as [|h t IH]; simpl; [intuition|].
  destruct (ranks_before x h); simpl; [intuition|]. rewrite IH. intuition.
Qed.

Lemma insert_ranked_sorted x l :
  StronglySorted not_after l -> StronglySorted not_after (insert_ranked x l).
Proof.
  induction l as [|h t IH]; simpl; intros Hs.
  - repeat constructor.
  - inversion Hs as [|? ? Hst Hh]; subst.
    destruct (ranks_before x h) eqn:E.
    + constructor; [exact Hs|]. constructor; [now apply ranks_before_asym|].
      apply Forall_forall. intros y Hy. eapply Forall_forall in Hh; [|exact Hy].
      unfold not_after in *. apply not_true_iff_false. intros Hyx.
      rewrite (ranks_before_trans _ _ _ Hyx E) in Hh. discriminate.
    + constructor; [now apply IH|]. apply Forall_forall. intros y Hy.
      apply in_insert_ranked in Hy as [->|Hy]; [exact E|].
      eapply Forall_forall in Hh; eassumption.
Qed.

Lemma rank_sorted query choices : StronglySorted not_after (rank partial_ratio query choices).
Proof.
  unfold rank. induction (score_all partial_ratio query 0 choices); simpl.
  - constructor.
  - now apply insert_ranked_sorted.
Qed.

Lemma in_rank query choices y :
  In y (rank partial_ratio query choices) <-> In y (score_all partial_ratio query 0 choices).
Proof.
  unfold rank. induction (score_all partial_ratio query 0 choices); simpl; [tauto|].
  rewrite in_insert_ranked, IHl. intuition.
Qed.

Lemma in_score_all query k choices c sc i :
  In (c, sc, i) (score_all partial_ratio query k choices) ->
  (k <= i)%nat /\ nth_error choices (i - k) = Some c /\ sc = partial_ratio query c.
Proof.
  revert k. induction choices as [|c' r IH]; simpl; intros k H; [contradiction|].
  destruct H as [H|H].
  - inversion H; subst. rewrite Nat.sub_diag. auto.
  - apply IH in H as [Hle [Hn Hs]]. split; [lia|]. split; [|exact Hs].
    replace (i - k)%nat with (S (i - S k)) by lia. exact Hn.
Qed.

Lemma score_all_in query k choices i c :
  nth_error choices i = Some c ->
  In (c, partial_ratio query c, (k + i)%nat) (score_all partial_ratio query k choices).
Proof.
  revert k i. induction choices as [|c' r IH]; intros k i H; simpl.
  - destruct i; discriminate.
  - destruct i as [|i]; simpl in H.
    + inversion H; subst. left. f_equal. lia.
    + right. replace (k + S i)%nat with (S k + i)%nat by lia. now apply IH.
Qed.

Lemma sorted_app_not_after l1 l2 x y :
  StronglySorted not_after (app l1 l2) -> In x l1 -> In y l2 -> not_after x y.
Proof.
  induction l1 as [|h t IH]; simpl; intros Hs Hx Hy; [contradiction|].
  inversion Hs as [|? ? Hst Hh]; subst. destruct Hx as [->|Hx]; [|now apply IH].
  eapply Forall_forall in Hh; [exact Hh|]. apply in_or_app. now right.
Qed.

Lemma first_path_spec dn (files : Dict.t string) r :
  first_path dn files = Some r ->
  exists i, nth_error files i = Some (r, dn) /\
            forall i' r', (i' < i)%nat -> nth_error files i' <> Some (r', dn).
Proof.
  induction files as [|[rp d] files IH]; simpl; [discriminate|].
  destruct (String.eqb d dn) eqn:E.
  - intros H. inversion H; subst. apply String.eqb_eq in E. subst.
    exists 0%nat. split; [reflexivity|]. intros; lia.
  - intros H. destruct (IH H) as [i [Hi Hfirst]]. exists (S i). split; [exact Hi|].
    intros [|i'] r' Hlt; simpl.
    + intros He. inversion He; subst. now rewrite String.eqb_refl in E.
    + apply Hfirst. lia.
Qed.

Lemma nth_error_keys_inj (files : Dict.t string) i j k a b :
  NoDup (Dict.keys files) -> nth_error files i = Some (k, a) ->
  nth_error files j = Some (k, b) -> i = j.
Proof.
  intros Hnd Hi Hj. unfold Dict.keys in Hnd. eapply NoDup_nth_error; [exact Hnd| |].
  - rewrite length_map. apply nth_error_Some. congruence.
  - rewrite !nth_error_map, Hi, Hj. reflexivity.
Qed.

Lemma in_search files query limit r dn sc :
  In (r, dn, sc) (search partial_ratio files query limit) ->
  (30 < sc)%Q /\ first_path dn files = Some r /\
  exists j, In (dn, sc, j) (extract partial_ratio query (map snd files) limit).
Proof.
  unfold search. destruct (String.eqb query "") ; [intros []|].
  rewrite in_flat_map. intros [[[dn' sc'] j] [Hin H]].
  destruct (Qle_bool sc' 30) eqn:Hq; simpl in H; [contradiction|].
  destruct (first_path dn' files) eqn:Hf; [|contradiction].
  destruct H as [H|[]]. inversion H; subst.
  split; [|split; [exact Hf|exists j; exact Hin]].
  now apply qle_false.
Qed.

Lemma search_length files query limit :
  (length (search partial_ratio files query limit) <= limit)%nat.
Proof.
  unfold search. destruct (String.eqb query ""); simpl; [lia|].
  unfold extract.
  apply Nat.le_trans with (length (firstn limit (rank partial_ratio query (map snd files))));
    [|apply firstn_le_length].
  generalize (firstn limit (rank partial_ratio query (map snd files))).
  intros l. induction l as [|[[d s] j] l IH]; simpl; [lia|].
  destruct (Qle_bool s 30); simpl; [lia|].
  destruct (first_path d files); simpl; lia.
Qed.

End WithScorer.
End SearchFacts.

(** [C6] Fuzzy search floor and window.  Every returned entry scores above
    30, at most [limit] entries are returned, and the floor is applied after
    [process.extract] has cut the ranking to [limit]: a catalog entry whose
    ranked candidate is outside that window is never returned, whatever
    its score. *)
Theorem search_floor_after_window (partial_ratio : string -> string -> Q)
    (audio_files : Dict.t string) (query : string) (limit : nat) :
  NoDup (Dict.keys audio_files) ->
  (forall r dn sc, In (r, dn, sc) (search partial_ratio audio_files query limit) -> (30 < sc)%Q) /\
  (length (search partial_ratio audio_files query limit) <= limit)%nat /\
  (forall i rel_path dn, nth_error audio_files i = Some (rel_path, dn) ->
     ~ In (dn, partial_ratio query dn, i) (extract partial_ratio query (map snd audio_files) limit) ->
     forall dn' sc, ~ In (rel_path, dn', sc) (search partial_ratio audio_files query limit)).
Proof.
  intros Hnd. split; [|split].
  - intros r dn sc H. now apply SearchFacts.in_search in H.
  - apply SearchFacts.search_length.
  - intros i rp dn Hi Hout dn' sc Hin.
    apply SearchFacts.in_search in Hin as [_ [Hfp [j Hj]]].
    apply SearchFacts.first_path_spec in Hfp as [i0 [Hi0 Hfirst]].
    pose proof (SearchFacts.nth_error_keys_inj _ _ _ _ _ _ Hnd Hi0 Hi) as ->.
    rewrite Hi in Hi0. inversion Hi0; subst dn'. clear Hi0.
    assert (Hjr : In (dn, sc, j) (rank partial_ratio query (map snd audio_files)))
      by (rewrite <- (firstn_skipn limit (rank partial_ratio query (map snd audio_files)));
          apply in_or_app; left; exact Hj).
    apply SearchFacts.in_rank, SearchFacts.in_score_all in Hjr as [_ [Hjn ->]].
    rewrite Nat.sub_0_r, nth_error_map in Hjn.
    destruct (nth_error audio_files j) as [[r' d']|] eqn:Ej; inversion Hjn; subst d'.
    assert (Hij : (i < j)%nat).
    { destruct (Nat.lt_trichotomy i j) as [H|[H|H]]; [exact H| |].
      - subst j. contradiction.
      - exfalso. exact (Hfirst j r' H Ej). }
    assert (Hyr : In (dn, partial_ratio query dn, i) (rank partial_ratio query (map snd audio_files))).
    { apply SearchFacts.in_rank. apply (SearchFacts.score_all_in _ _ 0 _ i).
      rewrite nth_error_map, Hi. reflexivity. }
    rewrite <- (firstn_skipn limit (rank partial_ratio query (map snd audio_files))) in Hyr.
    apply in_app_or in Hyr as [Hyr|Hyr]; [contradiction|].
    assert (Hs := SearchFacts.rank_sorted partial_ratio query (map snd audio_files)).
    rewrite <- (firstn_skipn limit (rank partial_ratio query (map snd audio_files))) in Hs.
    pose proof (SearchFacts.sorted_app_not_after _ _ _ _ Hs Hj Hyr) as Hna.
    unfold SearchFacts.not_after in Hna.
    assert (Hrb : ranks_before (dn, partial_ratio query dn, i) (dn, partial_ratio query dn, j) = true).
    { apply SearchFacts.ranks_before_iff. right. split; [apply Qeq_refl|exact Hij]. }
    congruence.
Qed.

(** [C10] Duplicate labels.  Each search result carries the first
    identifier, in catalog order, whose display name is the ranked label;
    when two identifiers share a label the later one is never returned. *)
Theorem search_duplicate_label_first (partial_ratio : string -> string -> Q)
    (audio_files : Dict.t string) (query : string) (limit : nat) :
  NoDup (Dict.keys audio_files) ->
  (forall r dn sc, In (r, dn, sc) (search partial_ratio audio_files query limit) ->
     first_path dn audio_files = Some r) /\
  (forall i1 i2 r1 r2 dn, (i1 < i2)%nat ->
     nth_error audio_files i1 = Some (r1, dn) -> nth_error audio_files i2 = Some (r2, dn) ->
     forall dn' sc, ~ In (r2, dn', sc) (search partial_ratio audio_files query limit)).
Proof.
  intros Hnd. split.
  - intros r dn sc H. now apply SearchFacts.in_search in H.
  - intros i1 i2 r1 r2 dn Hlt H1 H2 dn' sc Hin.
    apply SearchFacts.in_search in Hin as [_ [Hfp _]].
    apply SearchFacts.first_path_spec in Hfp as [i0 [Hi0 Hfirst]].
    pose proof (SearchFacts.nth_error_keys_inj _ _ _ _ _ _ Hnd Hi0 H2) as ->.
    rewrite H2 in Hi0. inversion Hi0; subst dn'.
    exact (Hfirst i1 r1 Hlt H1).
Qed.

Definition dup_catalog : Dict.t string :=
  [("protoss/a.ogg", "[Protoss] a"); ("protoss/a.wav", "[Protoss] a");
   ("terran/b.ogg", "[Terran] b")].

(** a stand-in scorer for the witnesses *)
Definition toy_ratio (query choice : string) : Q :=
  if String.eqb choice "[Terran] b" then 10 else 80.

Lemma dup_catalog_NoDup : NoDup (Dict.keys dup_catalog).
Proof.
  repeat constructor; simpl; intros H; repeat destruct H as [H|H]; discriminate || contradiction.
Qed.

Lemma search_floor_after_window_witness :
  NoDup (Dict.keys dup_catalog) /\
  ((forall r dn sc, In (r, dn, sc) (search toy_ratio dup_catalog "a" 1) -> (30 < sc)%Q) /\
   (length (search toy_ratio dup_catalog "a" 1) <= 1)%nat /\
   (forall i rel_path dn, nth_error dup_catalog i = Some (rel_path, dn) ->
      ~ In (dn, toy_ratio "a" dn, i) (extract toy_ratio "a" (map snd dup_catalog) 1) ->
      forall dn' sc, ~ In (rel_path, dn', sc) (search toy_ratio dup_catalog "a" 1))).
Proof.
  split; [exact dup_catalog_NoDup|].
  apply (search_floor_after_window toy_ratio dup_catalog "a" 1). exact dup_catalog_NoDup.
Defined.

Lemma search_duplicate_label_first_witness :
  NoDup (Dict.keys dup_catalog) /\
  ((forall r dn sc, In (r, dn, sc) (search toy_ratio dup_catalog "a" 5) ->
      first_path dn dup_catalog = Some r) /\
   (forall i1 i2 r1 r2 dn, (i1 < i2)%nat ->
      nth_error dup_catalog i1 = Some (r1, dn) -> nth_error dup_catalog i2 = Some (r2, dn) ->
      forall dn' sc, ~ In (r2, dn', sc) (search toy_ratio dup_catalog "a" 5))).
Proof.
  split; [exact dup_catalog_NoDup|].
  apply (search_duplicate_label_first toy_ratio dup_catalog "a" 5). exact dup_catalog_NoDup.
Defined.

Example search_dup_catalog :
  search toy_ratio dup_catalog "a" 5
  = [("protoss/a.ogg", "[Protoss] a", 80%Q); ("protoss/a.ogg", "[Protoss] a", 80%Q)].
Proof. reflexivity. Qed.

(** ** Inline queries *)
Module InlineFacts.

Lemma build_inline_spec file_id_cache results : forall idx it,
  In it (build_inline file_id_cache idx results) ->
  (idx <= res_id it)%nat /\
  exists rp sc, nth_error results (res_id it - idx) = Some (rp, res_title it, sc) /\
                Dict.get rp file_id_cache = Some (voice_file_id it).
Proof.
  induction results as [|[[rp dn] sc] r IH]; simpl; intros idx it H; [contradiction|].
  destruct (Dict.get rp file_id_cache) as [fid|] eqn:E.
  - destruct H as [<-|H].
    + simpl. rewrite Nat.sub_diag. split; [lia|]. exists rp, sc. auto.
    + apply IH in H as [Hle [rp' [sc' [Hn Hg]]]]. split; [lia|].
      exists rp', sc'. replace (res_id it - idx)%nat with (S (res_id it - S idx)) by lia. auto.
  - apply IH in H as [Hle [rp' [sc' [Hn Hg]]]]. split; [lia|].
    exists rp', sc'. replace (res_id it - idx)%nat with (S (res_id it - S idx)) by lia. auto.
Qed.

Lemma build_inline_sorted file_id_cache results : forall idx,
  StronglySorted lt (map res_id (build_inline file_id_cache idx results)).
Proof.
  induction results as [|[[rp dn] sc] r IH]; simpl; intros idx; [constructor|].
  destruct (Dict.get rp file_id_cache); [|apply IH].
  simpl. constructor; [apply IH|]. apply Forall_forall. intros x Hx.
  apply in_map_iff in Hx as [it [<- Hit]]. apply build_inline_spec in Hit. simpl. lia.
Qed.

Lemma StronglySorted_firstn {A} (R : A -> A -> Prop) n l :
  StronglySorted R l -> StronglySorted R (firstn n l).
Proof.
  revert l. induction n as [|n IH]; intros [|x l] H; simpl; try constructor.
  - inversion H; subst. now apply IH.
  - inversion H as [|? ? _ Hf]; subst. apply Forall_forall. intros y Hy.
    eapply Forall_forall in Hf; [exact Hf|].
    rewrite <- (firstn_skipn n l). apply in_or_app. now left.
Qed.

End InlineFacts.

(** [C7] Query responder.  Every answered result carries the handle that
    [file_id_cache] holds for the identifier of the search result it comes
    from (so identifiers absent from the cache never appear), results keep
    the search order (their indices in the search results strictly
    increase) and at most 50 are answered. *)
Theorem inline_results_cached (partial_ratio : string -> string -> Q)
    (audio_files file_id_cache : Dict.t string) (inline_query : string) :
  let search_results := search partial_ratio audio_files (PyStr.strip inline_query) 20 in
  let results := fst (inline_query_handler partial_ratio audio_files file_id_cache inline_query) in
  (length results <= 50)%nat /\
  (forall it, In it results ->
     exists rp sc, nth_error search_results (res_id it) = Some (rp, res_title it, sc) /\
                   Dict.get rp file_id_cache = Some (voice_file_id it)) /\
  StronglySorted lt (map res_id results).
Proof.
  unfold inline_query_handler. cbv zeta.
  destruct (search partial_ratio audio_files (PyStr.strip inline_query) 20) as [|x xs] eqn:Hs.
  { cbn [fst]. split; [cbn; lia|]. split; [intros _ []|constructor]. }
  destruct (build_inline file_id_cache 0 (x :: xs)) as [|y ys] eqn:Hb.
  { cbn [fst]. split; [cbn; lia|]. split; [intros _ []|constructor]. }
  cbn [fst]. split; [|split].
  - apply firstn_le_length.
  - intros it Hit.
    assert (Hin : In it (build_inline file_id_cache 0 (x :: xs))).
    { rewrite Hb, <- (firstn_skipn 50 (y :: ys)). apply in_or_app. now left. }
    apply InlineFacts.build_inline_spec in Hin as [_ H]. rewrite Nat.sub_0_r in H. exact H.
  - rewrite <- firstn_map. apply InlineFacts.StronglySorted_firstn. rewrite <- Hb.
    apply InlineFacts.build_inline_sorted.
Qed.

Example inline_query_scenario :
  inline_query_handler toy_ratio dup_catalog [("protoss/a.ogg", "h1")] " a "
  = ([{| res_id := 0; voice_file_id := "h1"; res_title := "[Protoss] a" |};
      {| res_id := 1; voice_file_id := "h1"; res_title := "[Protoss] a" |}], 300%nat).
Proof. reflexivity. Qed.

(** ** The upload pipeline *)
Module PipelineFacts.
Import Upload DictFacts.

(** the state after a transport call, whatever the reply *)
Definition call_state (c : call) (s : state) : state :=
  mkState (file_id_cache s) (disk s) (uploaded s) (skipped s) (errors s) (S (clock s))
          (ECall c :: trace s).

(** *** Relations preserved by a computation *)
Section Preserves.
Context (P : state -> state -> Prop) {HP : PreOrder P}.

Definition preserves {A} (m : M A) : Prop := forall s, P s (snd (m s)).

Lemma pres_ret {A} (a : A) : preserves (ret a).
Proof. intros s. reflexivity. Qed.
Lemma pres_raise {A} e : preserves (@raise A e).
Proof. intros s. reflexivity. Qed.
Lemma pres_gets {A} (f : state -> A) : preserves (gets f).
Proof. intros s. reflexivity. Qed.
Lemma pres_modify f : (forall s, P s (f s)) -> preserves (modify f).
Proof. intros H s. apply H. Qed.
Lemma pres_bind {A B} (m : M A) (k : A -> M B) :
  preserves m -> (forall a, preserves (k a)) -> preserves (bind m k).
Proof.
  intros Hm Hk s. unfold bind. specialize (Hm s).
  destruct (m s) as [[a|e] s']; simpl in *; [|exact Hm].
  transitivity s'; [exact Hm|apply Hk].
Qed.
Lemma pres_try {A} (m : M A) h :
  preserves m -> (forall e, preserves (h e)) -> preserves (try_except m h).
Proof.
  intros Hm Hh s. unfold try_except. specialize (Hm s).
  destruct (m s) as [[a|e] s']; simpl in *; [exact Hm|].
  transitivity s'; [exact Hm|apply Hh].
Qed.
End Preserves.

Ltac pres :=
  repeat match goal with
  | |- preserves _ (bind _ _) => apply pres_bind; [..|intros ?]; try exact _
  | |- preserves _ (try_except _ _) => apply pres_try; [..|intros ?]; try exact _
  | |- preserves _ (ignore_retry_after _) => unfold ignore_retry_after
  | |- preserves _ (ret _) => apply pres_ret; exact _
  | |- preserves _ (raise _) => apply pres_raise; exact _
  | |- preserves _ (gets _) => apply pres_gets; exact _
  | |- preserves _ (sleep _) => unfold sleep
  | |- preserves _ (if ?b then _ else _) => destruct b
  | |- preserves _ (match ?e with _ => _ end) => destruct e
  end.

Section WithTransport.
Variable transport : nat -> call -> reply.

Lemma tcall_state c s : snd (tcall transport c s) = call_state c s.
Proof. unfold tcall. destruct (transport (clock s) c); reflexivity. Qed.

Lemma pres_tcall (P : state -> state -> Prop) c :
  (forall s, P s (call_state c s)) -> preserves P (tcall transport c).
Proof. intros H s. rewrite tcall_state. apply H. Qed.

(** *** The frame of one entry [p] *)

Lemma count_voice_app q l1 l2 :
  count_voice q (app l1 l2) = (count_voice q l1 + count_voice q l2)%nat.
Proof. unfold count_voice. now rewrite filter_app, length_app. Qed.

(** transport calls made for entry [q]: its upload and its deletion *)
Definition entry_calls (q : string) (l : list event) : nat :=
  (count_voice q l + length (filter (is_call (DeleteMessage q)) l))%nat.

Lemma entry_calls_app q l1 l2 :
  entry_calls q (app l1 l2) = (entry_calls q l1 + entry_calls q l2)%nat.
Proof. unfold entry_calls. rewrite count_voice_app, filter_app, length_app. lia. Qed.

Lemma count_sleeps_app l1 l2 :
  count_sleeps (app l1 l2) = (count_sleeps l1 + count_sleeps l2)%nat.
Proof. unfold count_sleeps. now rewrite filter_app, length_app. Qed.

(** processing [p] changes no other cache key, does not count skips, never
    decreases [errors] and uploads no other file *)
Definition Fr (p : string) (s s' : state) : Prop :=
  (forall k, k <> p -> Dict.get k (file_id_cache s') = Dict.get k (file_id_cache s)) /\
  skipped s' = skipped s /\ (errors s <= errors s')%nat /\
  exists new, trace s' = app new (trace s) /\ forall q, q <> p -> entry_calls q new = 0%nat.

#[export] Instance Fr_preorder p : PreOrder (Fr p).
Proof.
  split.
  - intros s. split; [reflexivity|]. split; [reflexivity|]. split; [lia|].
    exists []. split; reflexivity.
  - intros s1 s2 s3 [H1 [H2 [H3 [n1 [T1 C1]]]]] [H1' [H2' [H3' [n2 [T2 C2]]]]].
    split; [intros k Hk; rewrite H1', H1 by exact Hk; reflexivity|].
    split; [congruence|]. split; [lia|].
    exists (app n2 n1). split; [rewrite T2, T1; apply app_assoc|].
    intros q Hq. rewrite entry_calls_app, C1, C2 by exact Hq. reflexivity.
Qed.

Lemma Fr_step p s s' e :
  file_id_cache s' = file_id_cache s -> skipped s' = skipped s -> (errors s <= errors s')%nat ->
  trace s' = e :: trace s ->
  (forall q, q <> p -> is_call (AnswerVoice q) e = false /\ is_call (DeleteMessage q) e = false) ->
  Fr p s s'.
Proof.
  intros Hc Hs He Ht Hv. split; [intros k _; now rewrite Hc|]. split; [exact Hs|].
  split; [exact He|]. exists [e]. split; [exact Ht|].
  intros q Hq. unfold entry_calls, count_voice. simpl.
  destruct (Hv q Hq) as [-> ->]. reflexivity.
Qed.

Lemma Fr_call p c s :
  (forall q, q <> p -> is_call (AnswerVoice q) (ECall c) = false /\
                      is_call (DeleteMessage q) (ECall c) = false) ->
  Fr p s (call_state c s).
Proof. intros H. apply (Fr_step p _ _ (ECall c)); simpl; auto. Qed.

Lemma Fr_emit p s n : Fr p s (emit (ESleep n) s).
Proof. apply (Fr_step p _ _ (ESleep n)); simpl; auto. Qed.

Ltac fr_leaf :=
  first
  [ apply pres_tcall; intros ?; apply Fr_call; intros ? ?; simpl;
    split; try (apply String.eqb_neq; congruence); reflexivity
  | apply pres_modify; intros ?; apply Fr_emit
  | apply pres_modify; intros s0; split;
    [ intros ? ?; simpl; try (apply get_set_other; assumption); reflexivity
    | split; [reflexivity|]; split; [simpl; lia|]; exists []; split; reflexivity ]
  | intros s0; apply (Fr_step _ _ _ (ESave (file_id_cache s0))); simpl; auto ].

Lemma upload_once_Fr total p : preserves (Fr p) (upload_once transport total p).
Proof. unfold upload_once, save. pres; fr_leaf. Qed.

Lemma on_failure_Fr p e : preserves (Fr p) (on_failure transport e).
Proof. unfold on_failure. pres; fr_leaf. Qed.

Lemma retry_loop_Fr fuel total p rc : preserves (Fr p) (retry_loop transport fuel total p rc).
Proof.
  revert rc. induction fuel as [|fuel IH]; intros rc; simpl; pres; try apply IH.
  - apply upload_once_Fr.
  - apply on_failure_Fr.
Qed.


(** *** Unfolding one step *)

Lemma bind_ok {A B} (m : M A) (k : A -> M B) s a s' :
  m s = (Ok a, s') -> bind m k s = k a s'.
Proof. intros E. unfold bind. now rewrite E. Qed.

Lemma bind_raised {A B} (m : M A) (k : A -> M B) s e s' :
  m s = (Raised e, s') -> bind m k s = (Raised e, s').
Proof. intros E. unfold bind. now rewrite E. Qed.

Lemma bind_gets {A B} (f : state -> A) (k : A -> M B) s : bind (gets f) k s = k (f s) s.
Proof. reflexivity. Qed.

Lemma bind_modify {B} f (k : unit -> M B) s : bind (modify f) k s = k tt (f s).
Proof. reflexivity. Qed.

Lemma process_all_cons total q r s :
  process_all transport total (q :: r) s =
  bind (process_entry transport total q) (fun _ => process_all transport total r) s.
Proof. reflexivity. Qed.

Lemma process_all_app total l1 l2 s :
  process_all transport total (app l1 l2) s =
  match process_all transport total l1 s with
  | (Ok _, s') => process_all transport total l2 s'
  | (Raised e, s') => (Raised e, s')
  end.
Proof.
  revert s. induction l1 as [|q r IH]; intros s; [reflexivity|].
  simpl app. rewrite !process_all_cons. unfold bind.
  destruct (process_entry transport total q s) as [[u|e] s1]; [apply IH|reflexivity].
Qed.

(** one entry is either a cache hit, counted as skipped with no other
    effect, or it runs the retry loop within the frame of its key *)
Lemma process_entry_cases total q s :
  (Dict.mem q (file_id_cache s) = true /\
   process_entry transport total q s = (Ok tt, incr_skipped s)) \/
  (Dict.mem q (file_id_cache s) = false /\
   Fr q s (snd (process_entry transport total q s))).
Proof.
  unfold process_entry. rewrite bind_gets.
  destruct (Dict.mem q (file_id_cache s)); [left; split; reflexivity|right; split; [reflexivity|]].
  assert (HP : preserves (Fr q) (bind (retry_loop transport max_retries total q 0)
                                      (fun _ => ret tt))) by (pres; apply retry_loop_Fr).
  apply HP.
Qed.

(** *** Never raising *)
Definition no_raise {A} (m : M A) : Prop := forall s, exists a, fst (m s) = Ok a.

Lemma nr_ret {A} (a : A) : no_raise (ret a).
Proof. intros s. now exists a. Qed.
Lemma nr_gets {A} (f : state -> A) : no_raise (gets f).
Proof. intros s. now exists (f s). Qed.
Lemma nr_modify f : no_raise (modify f).
Proof. intros s. now exists tt. Qed.
Lemma nr_bind {A B} (m : M A) (k : A -> M B) :
  no_raise m -> (forall a, no_raise (k a)) -> no_raise (bind m k).
Proof.
  intros Hm Hk s. unfold bind. destruct (Hm s) as [a Ha].
  destruct (m s) as [r s'] eqn:E. simpl in Ha. subst r. apply Hk.
Qed.
Lemma nr_try_body {A} (m : M A) h : no_raise m -> no_raise (try_except m h).
Proof.
  intros Hm s. unfold try_except. destruct (Hm s) as [a Ha].
  destruct (m s) as [r s'] eqn:E. simpl in Ha. subst r. now exists a.
Qed.
Lemma nr_try_handler {A} (m : M A) h : (forall e, no_raise (h e)) -> no_raise (try_except m h).
Proof.
  intros Hh s. unfold try_except. destruct (m s) as [[a|e] s']; [now exists a|apply Hh].
Qed.

Lemma nr_ok {A} (m : M A) s : no_raise m -> exists a, m s = (Ok a, snd (m s)).
Proof. intros H. destruct (H s) as [a Ha]. exists a. destruct (m s). simpl in *. congruence. Qed.

Section TextOk.
(** every status message ([message.answer]) goes through *)
Hypothesis text_ok : forall n t, exists h, transport n (AnswerText t) = ROk h.

Lemma tcall_text t s : exists h, tcall transport (AnswerText t) s = (Ok h, call_state (AnswerText t) s).
Proof. unfold tcall. destruct (text_ok (clock s) t) as [h ->]. now exists h. Qed.

Lemma nr_text t : no_raise (tcall transport (AnswerText t)).
Proof. intros s. destruct (tcall_text t s) as [h ->]. now exists h. Qed.

Ltac nr :=
  repeat match goal with
  | |- no_raise (bind _ _) => apply nr_bind; [|intros ?]
  | |- no_raise (ignore_retry_after _) => unfold ignore_retry_after; apply nr_try_body
  | |- no_raise (try_except _ _) => apply nr_try_handler; intros ?
  | |- no_raise (ret _) => apply nr_ret
  | |- no_raise (gets _) => apply nr_gets
  | |- no_raise (modify _) => apply nr_modify
  | |- no_raise (sleep _) => unfold sleep
  | |- no_raise (tcall _ (AnswerText _)) => apply nr_text
  | |- no_raise save => intros ?; now exists tt
  | |- no_raise (if ?b then _ else _) => destruct b
  | |- no_raise (match ?e with _ => _ end) => destruct e
  end.

Lemma on_failure_nr e : no_raise (on_failure transport e).
Proof. unfold on_failure. nr. Qed.

Lemma retry_loop_nr fuel total p rc : no_raise (retry_loop transport fuel total p rc).
Proof.
  revert rc. induction fuel as [|fuel IH]; intros rc; simpl; nr; try apply IH.
  apply on_failure_nr.
Qed.

Lemma process_entry_nr total p : no_raise (process_entry transport total p).
Proof. unfold process_entry. nr. apply retry_loop_nr. Qed.

Lemma process_all_nr total l : no_raise (process_all transport total l).
Proof. induction l as [|q r IH]; simpl; nr; [apply process_entry_nr|apply IH]. Qed.

Lemma final_summary_ok total s :
  final_summary transport total s =
  (Ok tt, call_state (AnswerText (TSummary total (uploaded s) (skipped s) (errors s))) s).
Proof.
  unfold final_summary. rewrite bind_gets. cbv zeta. unfold try_except.
  destruct (tcall_text (TSummary total (uploaded s) (skipped s) (errors s)) s) as [h E].
  now rewrite (bind_ok _ _ _ _ _ E).
Qed.

End TextOk.

(** *** An entry that always fails *)

(** the state after three failed attempts: three uploads, three errors,
    three one-second sleeps, cache untouched *)
Definition failed_thrice (p : string) (s : state) : state :=
  mkState (file_id_cache s) (disk s) (uploaded s) (skipped s) (3 + errors s) (3 + clock s)
    (ESleep 1 :: ECall (AnswerVoice p) :: ESleep 1 :: ECall (AnswerVoice p) ::
     ESleep 1 :: ECall (AnswerVoice p) :: trace s).

(** one iteration of the retry loop: the [try] block and its handlers *)
Definition attempt (total : nat) (p : string) : M bool :=
  try_except (bind (upload_once transport total p) (fun _ => ret true))
             (fun e => bind (on_failure transport e) (fun _ => ret false)).

Lemma retry_loop_S fuel total p rc :
  retry_loop transport (S fuel) total p rc =
  if Nat.ltb rc max_retries
  then bind (attempt total p)
         (fun ok => if ok then ret rc else retry_loop transport fuel total p (S rc))
  else ret rc.
Proof. reflexivity. Qed.

Lemma retry_loop_again fuel total p rc s s1 :
  Nat.ltb rc max_retries = true -> attempt total p s = (Ok false, s1) ->
  retry_loop transport (S fuel) total p rc s = retry_loop transport fuel total p (S rc) s1.
Proof. intros Hlt Ha. rewrite retry_loop_S, Hlt. exact (bind_ok _ _ _ _ _ Ha). Qed.

(** the state after one failed attempt *)
Definition failed_once (p : string) (s : state) : state :=
  mkState (file_id_cache s) (disk s) (uploaded s) (skipped s) (S (errors s)) (S (clock s))
    (ESleep 1 :: ECall (AnswerVoice p) :: trace s).

Lemma attempt_fail total p s :
  (forall n, transport n (AnswerVoice p) = RError) ->
  attempt total p s = (Ok false, failed_once p s).
Proof.
  intros Hfail. unfold attempt, try_except.
  assert (E : upload_once transport total p s =
              (Raised OtherError, call_state (AnswerVoice p) s))
    by (unfold upload_once; apply bind_raised; unfold tcall; now rewrite Hfail).
  rewrite (bind_raised _ _ _ _ _ E). reflexivity.
Qed.

Lemma retry_loop_fail total p s :
  (forall n, transport n (AnswerVoice p) = RError) ->
  retry_loop transport max_retries total p 0 s = (Ok 3%nat, failed_thrice p s).
Proof.
  intros Hfail. change (retry_loop transport max_retries) with (retry_loop transport (S 2)).
  rewrite (retry_loop_again 2 total p 0 s _ eq_refl (attempt_fail total p s Hfail)).
  rewrite (retry_loop_again 1 total p 1 _ _ eq_refl (attempt_fail total p _ Hfail)).
  rewrite (retry_loop_again 0 total p 2 _ _ eq_refl (attempt_fail total p _ Hfail)).
  reflexivity.
Qed.

Lemma process_entry_fail total p s :
  Dict.mem p (file_id_cache s) = false ->
  (forall n, transport n (AnswerVoice p) = RError) ->
  process_entry transport total p s = (Ok tt, failed_thrice p s).
Proof.
  intros Hm Hfail. unfold process_entry. rewrite bind_gets, Hm.
  now rewrite (bind_ok _ _ _ _ _ (retry_loop_fail total p s Hfail)).
Qed.

(** *** Entries other than [p] *)

(** the relation between states around the entries other than [p] *)
Definition Other (p : string) (s s' : state) : Prop :=
  Dict.get p (file_id_cache s') = Dict.get p (file_id_cache s) /\
  (errors s <= errors s')%nat /\
  exists new, trace s' = app new (trace s) /\ entry_calls p new = 0%nat.

#[export] Instance Other_preorder p : PreOrder (Other p).
Proof.
  split.
  - intros s. split; [reflexivity|]. split; [lia|]. exists []. split; reflexivity.
  - intros s1 s2 s3 [H1 [H2 [n1 [T1 C1]]]] [H1' [H2' [n2 [T2 C2]]]].
    split; [congruence|]. split; [lia|]. exists (app n2 n1).
    split; [rewrite T2, T1; apply app_assoc|]. rewrite entry_calls_app. lia.
Qed.

Lemma process_entry_Other total p q : q <> p -> preserves (Other p) (process_entry transport total q).
Proof.
  intros Hq s. destruct (process_entry_cases total q s) as [[_ ->]|[_ [Hk [_ [He [n [T C]]]]]]].
  - simpl. split; [reflexivity|]. split; [simpl; lia|]. exists []. split; reflexivity.
  - split; [apply Hk; congruence|]. split; [exact He|]. exists n. split; [exact T|]. auto.
Qed.

Lemma process_all_Other total p l : ~ In p l -> preserves (Other p) (process_all transport total l).
Proof.
  induction l as [|q r IH]; intros Hin; simpl; pres.
  - apply process_entry_Other. intros ->. apply Hin. now left.
  - apply IH. intros H. apply Hin. now right.
Qed.

(** *** Keeping a cached entry *)

(** once [p] is cached, its handle stays and it is never uploaded *)
Definition Kept (p : string) (s s' : state) : Prop :=
  Dict.mem p (file_id_cache s) = true ->
  Dict.get p (file_id_cache s') = Dict.get p (file_id_cache s) /\
  exists new, trace s' = app new (trace s) /\ entry_calls p new = 0%nat.

#[export] Instance Kept_preorder p : PreOrder (Kept p).
Proof.
  split.
  - intros s _. split; [reflexivity|]. exists []. split; reflexivity.
  - intros s1 s2 s3 H12 H23 Hm.
    destruct (H12 Hm) as [G1 [n1 [T1 C1]]].
    assert (Hm2 : Dict.mem p (file_id_cache s2) = true) by (unfold Dict.mem in *; now rewrite G1).
    destruct (H23 Hm2) as [G2 [n2 [T2 C2]]].
    split; [congruence|]. exists (app n2 n1).
    split; [rewrite T2, T1; apply app_assoc|]. rewrite entry_calls_app. lia.
Qed.

Lemma process_entry_Kept total p q : preserves (Kept p) (process_entry transport total q).
Proof.
  intros s Hm. destruct (process_entry_cases total q s) as [[_ ->]|[Hq [Hk [_ [_ [n [T C]]]]]]].
  - split; [reflexivity|]. exists []. split; reflexivity.
  - assert (q <> p) by (intros ->; congruence).
    split; [apply Hk; congruence|]. exists n. split; [exact T|]. auto.
Qed.

Lemma process_all_Kept total p l : preserves (Kept p) (process_all transport total l).
Proof.
  induction l as [|q r IH]; simpl; pres; [apply process_entry_Kept|apply IH].
Qed.

Lemma Kept_step p s s' e :
  file_id_cache s' = file_id_cache s -> trace s' = e :: trace s ->
  is_call (AnswerVoice p) e = false -> is_call (DeleteMessage p) e = false -> Kept p s s'.
Proof.
  intros Hc Ht Hv Hd _. split; [now rewrite Hc|]. exists [e]. split; [exact Ht|].
  unfold entry_calls, count_voice. simpl. now rewrite Hv, Hd.
Qed.

Lemma Kept_same p s s' :
  file_id_cache s' = file_id_cache s -> trace s' = trace s -> Kept p s s'.
Proof. intros Hc Ht _. split; [now rewrite Hc|]. exists []. split; [exact Ht|reflexivity]. Qed.

Lemma final_summary_pres (P : state -> state -> Prop) `{PreOrder state P} total :
  (forall s t, P s (call_state (AnswerText t) s)) -> (forall s d, P s (emit (ESleep d) s)) ->
  preserves P (final_summary transport total).
Proof.
  intros Hc He. unfold final_summary, sleep.
  pres; first [apply pres_tcall; intros; apply Hc | apply pres_modify; intros; apply He].
Qed.

(** *** The skip count *)

Lemma process_all_skipped total l s u s' :
  NoDup l -> process_all transport total l s = (Ok u, s') ->
  skipped s' = (skipped s + length (filter (fun k => Dict.mem k (file_id_cache s)) l))%nat.
Proof.
  revert s. induction l as [|q r IH]; intros s Hnd Hrun.
  - simpl in Hrun. inversion Hrun. simpl. lia.
  - inversion Hnd as [|? ? Hq Hnd']; subst. rewrite process_all_cons in Hrun.
    unfold bind in Hrun.
    destruct (process_entry transport total q s) as [[u1|e] s1] eqn:E; [|discriminate].
    rewrite (IH s1 Hnd' Hrun). simpl filter.
    destruct (process_entry_cases total q s) as [[Hm E']|[Hm HF]].
    + rewrite E in E'. inversion E'; subst. rewrite Hm. simpl. lia.
    + rewrite E in HF. simpl in HF. destruct HF as [Hk [Hs _]]. rewrite Hm, Hs.
      f_equal. f_equal. apply filter_ext_in. intros k Hk'.
      unfold Dict.mem. rewrite Hk; [reflexivity|]. intros ->. contradiction.
Qed.

(** [final_summary] touches none of the counters *)
Definition SameCounters (s s' : state) : Prop :=
  uploaded s' = uploaded s /\ skipped s' = skipped s /\ errors s' = errors s.

#[export] Instance SameCounters_preorder : PreOrder SameCounters.
Proof.
  split; [intros s; split; auto|].
  intros s1 s2 s3 [A1 [B1 C1]] [A2 [B2 C2]]. split; [congruence|split; congruence].
Qed.

Lemma final_summary_counters total : preserves SameCounters (final_summary transport total).
Proof.
  unfold final_summary, sleep. pres;
    first [ apply pres_tcall; intros ?; split; auto
          | apply pres_modify; intros ?; split; auto ].
Qed.

End WithTransport.
End PipelineFacts.

Import Upload PipelineFacts.

(** C1: under [cmd_upload] (run by an admin), an entry [p] of the catalog that
    is not cached and whose [answer_voice] raises a generic exception on every
    attempt is attempted exactly 3 times and stays absent from the cache.
    When the status messages go through, the run completes, adds 3 to the
    errored count for [p] (one per failed attempt) and ends with the summary
    of the final counters. *)
Theorem upload_transient_failure (transport : nat -> call -> reply)
    (all_files : Dict.t string) (p : string) (s0 s : state) (r : result unit) :
  NoDup (Dict.keys all_files) -> In p (Dict.keys all_files) ->
  Dict.get p (file_id_cache s0) = None ->
  (forall n, transport n (AnswerVoice p) = RError) ->
  (forall n t, exists h, transport n (AnswerText t) = ROk h) ->
  cmd_upload transport true all_files s0 = (r, s) ->
  r = Ok tt /\ Dict.get p (file_id_cache s) = None /\ (3 <= errors s)%nat /\
  exists new, trace s = app new (trace s0) /\ count_voice p new = 3%nat /\
    hd_error new = Some (ECall (AnswerText
                   (TSummary (length all_files) (uploaded s) (skipped s) (errors s)))).
Proof.
  intros Hnd Hin Hnone Hfail Htext Hrun.
  destruct (in_split _ _ Hin) as [l1 [l2 Hkeys]]. rewrite Hkeys in Hnd.
  assert (N1 : ~ In p l1)
    by (intros H; apply (NoDup_remove_2 _ _ _ Hnd); apply in_or_app; now left).
  assert (N2 : ~ In p l2)
    by (intros H; apply (NoDup_remove_2 _ _ _ Hnd); apply in_or_app; now right).
  unfold cmd_upload in Hrun. cbn [negb] in Hrun.
  destruct (tcall_text transport Htext TStarting s0) as [h0 E0].
  rewrite (bind_ok _ _ _ _ _ E0), bind_modify in Hrun. cbv beta zeta in Hrun.
  set (s1 := reset_counters (call_state (AnswerText TStarting) s0)) in Hrun.
  set (total := length all_files) in Hrun |- *.
  destruct (nr_ok _ s1 (process_all_nr transport Htext total l1)) as [u1 Ea].
  set (sa := snd (process_all transport total l1 s1)) in Ea.
  destruct (process_all_Other transport total p l1 N1 s1) as [Ga [Ea' [na [Ta Ca]]]].
  fold sa in Ga, Ea', Ta.
  assert (Hm : Dict.mem p (file_id_cache sa) = false)
    by (unfold Dict.mem; rewrite Ga; simpl; now rewrite Hnone).
  set (sp := failed_thrice p sa).
  destruct (nr_ok _ sp (process_all_nr transport Htext total l2)) as [u2 Eb].
  set (sb := snd (process_all transport total l2 sp)) in Eb.
  destruct (process_all_Other transport total p l2 N2 sp) as [Gb [Eb' [nb [Tb Cb]]]].
  fold sb in Gb, Eb', Tb.
  assert (Eall : process_all transport total (Dict.keys all_files) s1 = (Ok u2, sb)).
  { rewrite Hkeys, process_all_app, Ea, process_all_cons.
    rewrite (bind_ok _ _ _ _ _ (process_entry_fail transport total p sa Hm Hfail)).
    exact Eb. }
  rewrite (bind_ok _ _ _ _ _ Eall) in Hrun.
  unfold bind, save in Hrun. cbv beta zeta iota in Hrun.
  rewrite final_summary_ok in Hrun by exact Htext.
  inversion Hrun; subst r s; clear Hrun.
  split; [reflexivity|]. split.
  { simpl. rewrite Gb. simpl. rewrite Ga. simpl. exact Hnone. }
  split.
  { simpl. simpl in Eb'. lia. }
  exists (app [ECall (AnswerText (TSummary total (uploaded sb) (skipped sb) (errors sb)));
               ESave (file_id_cache sb)]
            (app nb (app (firstn 6 (trace sp)) (app na [ECall (AnswerText TStarting)])))).
  split; [|split].
  - simpl. rewrite Tb. f_equal. f_equal. rewrite <- !app_assoc. f_equal.
    simpl. rewrite Ta. rewrite <- app_assoc. reflexivity.
  - rewrite !count_voice_app. unfold entry_calls in Ca, Cb.
    unfold count_voice at 3. simpl. rewrite String.eqb_refl. simpl.
    assert (count_voice p [ECall (AnswerText TStarting)] = 0%nat) as -> by reflexivity.
    lia.
  - reflexivity.
Qed.

(** C2: under [cmd_upload], for any transport behaviour, an entry [p] already
    in the handle cache when the run starts keeps its cached handle and gets
    no transport call ([answer_voice] or [delete]); if the run completes,
    the skipped count is the number of catalog entries cached at the start,
    [p] among them. *)
Theorem upload_skips_cached (transport : nat -> call -> reply)
    (all_files : Dict.t string) (p : string) (s0 s : state) (r : result unit) :
  Dict.mem p (file_id_cache s0) = true ->
  cmd_upload transport true all_files s0 = (r, s) ->
  Dict.get p (file_id_cache s) = Dict.get p (file_id_cache s0) /\
  (exists new, trace s = app new (trace s0) /\ entry_calls p new = 0%nat) /\
  (r = Ok tt -> NoDup (Dict.keys all_files) ->
   skipped s = length (filter (fun k => Dict.mem k (file_id_cache s0)) (Dict.keys all_files))).
Proof.
  intros Hm Hrun.
  assert (HK : preserves (Kept p) (cmd_upload transport true all_files)).
  { unfold cmd_upload, save. pres;
      first [ apply process_all_Kept
            | apply final_summary_pres; [exact _| |];
              intros ? ?; [eapply (Kept_step _ _ _ (ECall (AnswerText _)))
                          |eapply (Kept_step _ _ _ (ESleep _))]; reflexivity
            | apply pres_tcall; intros ?; eapply (Kept_step _ _ _ (ECall (AnswerText _)));
              reflexivity
            | apply pres_modify; intros ?; apply Kept_same; reflexivity
            | intros ?; eapply (Kept_step _ _ _ (ESave _)); reflexivity ]. }
  destruct (HK s0 Hm) as [G [n [T C]]]. rewrite Hrun in G, T. simpl in G, T.
  split; [exact G|]. split; [exists n; split; assumption|].
  intros -> Hnd. unfold cmd_upload in Hrun. cbn [negb] in Hrun. unfold bind at 1 in Hrun.
  destruct (tcall transport (AnswerText TStarting) s0) as [[h0|e0] s1] eqn:E0;
    [|discriminate].
  rewrite bind_modify in Hrun. cbv beta zeta in Hrun. unfold bind at 1 in Hrun.
  destruct (process_all transport (length all_files) (Dict.keys all_files)
                        (reset_counters s1)) as [[u|e] s2] eqn:E2; [|discriminate].
  assert (Hs : skipped s = skipped s2).
  { unfold bind, save in Hrun. cbv beta zeta iota in Hrun.
    pose proof (final_summary_counters transport (length all_files)
      (mkState (file_id_cache s2) (save_file_id_cache (file_id_cache s2) (disk s2))
               (uploaded s2) (skipped s2) (errors s2) (clock s2)
               (ESave (file_id_cache s2) :: trace s2))) as [_ [Hs _]].
    rewrite Hrun in Hs. exact Hs. }
  rewrite Hs, (process_all_skipped _ _ _ _ _ _ Hnd E2).
  unfold tcall in E0. destruct (transport (clock s0) (AnswerText TStarting));
    inversion E0; subst; reflexivity.
Qed.

(** a two-entry catalog, an empty start and a transport on which uploading
    [a.ogg] always fails *)
Definition demo_files : Dict.t string := [("a.ogg", "a"); ("b.ogg", "b")].

Definition demo_s0 : state := mkState [] None 0 0 0 0 [].

Definition failing_transport (n : nat) (c : call) : reply :=
  match c with
  | AnswerVoice r => if String.eqb r "a.ogg" then RError else ROk ("id-" ++ r)
  | _ => ROk ""
  end.

Lemma demo_files_NoDup : NoDup (Dict.keys demo_files).
Proof.
  constructor; [simpl; intros [H|[]]; discriminate|].
  constructor; [intros []|constructor].
Qed.

Example upload_failing_scenario :
  let s := snd (cmd_upload failing_transport true demo_files demo_s0) in
  errors s = 3%nat /\ uploaded s = 1%nat /\ file_id_cache s = [("b.ogg", "id-b.ogg")].
Proof. vm_compute. auto. Qed.

Lemma upload_transient_failure_witness :
  let rs := cmd_upload failing_transport true demo_files demo_s0 in
  fst rs = Ok tt /\ Dict.get "a.ogg" (file_id_cache (snd rs)) = None /\
  (3 <= errors (snd rs))%nat /\
  exists new, trace (snd rs) = app new (trace demo_s0) /\ count_voice "a.ogg" new = 3%nat /\
    hd_error new = Some (ECall (AnswerText
      (TSummary (length demo_files) (uploaded (snd rs)) (skipped (snd rs)) (errors (snd rs))))).
Proof.
  intros rs. apply (upload_transient_failure failing_transport demo_files "a.ogg" demo_s0).
  - exact demo_files_NoDup.
  - simpl. now left.
  - reflexivity.
  - intros n. reflexivity.
  - intros n t. exists "". destruct t; reflexivity.
  - apply surjective_pairing.
Defined.

Lemma upload_skips_cached_witness :
  let s0 := mkState [("a.ogg", "H")] None 0 0 0 0 [] in
  let rs := cmd_upload failing_transport true demo_files s0 in
  Dict.get "a.ogg" (file_id_cache (snd rs)) = Dict.get "a.ogg" (file_id_cache s0) /\
  (exists new, trace (snd rs) = app new (trace s0) /\ entry_calls "a.ogg" new = 0%nat) /\
  (fst rs = Ok tt -> NoDup (Dict.keys demo_files) ->
   skipped (snd rs) =
   length (filter (fun k => Dict.mem k (file_id_cache s0)) (Dict.keys demo_files))).
Proof.
  intros s0 rs. apply (upload_skips_cached failing_transport demo_files "a.ogg" s0).
  - reflexivity.
  - apply surjective_pairing.
Defined.

(** ** Delays *)
Module DelayFacts.
Import Upload PipelineFacts.

Section WithTransport.
Variable transport : nat -> call -> reply.

(** a sleep lasts one second or [retry_after + 2] seconds for a
    [retry_after] the transport returned *)
Definition sleeps_ok (l : list event) : Prop :=
  Forall (fun e => match e with
                   | ESleep d => d = 1%nat \/
                       exists m c n, transport m c = RRetryAfter n /\ d = (n + 2)%nat
                   | _ => True
                   end) l.

Ltac prefix t base :=
  match t with
  | base => constr:(@nil event)
  | ?x :: ?r => let l := prefix r base in constr:(x :: l)
  end.

(** an exception carries a [retry_after] the transport returned *)
Definition exn_ok (e : exn) : Prop :=
  match e with
  | TelegramRetryAfter n => exists m c, transport m c = RRetryAfter n
  | OtherError => True
  end.

Lemma tcall_cases c s :
  (exists h, tcall transport c s = (Ok h, call_state c s)) \/
  (exists e, exn_ok e /\ tcall transport c s = (Raised e, call_state c s)).
Proof.
  unfold tcall. destruct (transport (clock s) c) as [h|n|] eqn:E.
  - left. now exists h.
  - right. exists (TelegramRetryAfter n). split; [now exists (clock s), c|reflexivity].
  - right. exists OtherError. split; [exact I|reflexivity].
Qed.

Lemma try_except_ok {A} (m : M A) h s a s' :
  m s = (Ok a, s') -> try_except m h s = (Ok a, s').
Proof. intros E. unfold try_except. now rewrite E. Qed.

Lemma try_except_raised {A} (m : M A) h s e s' :
  m s = (Raised e, s') -> try_except m h s = h e s'.
Proof. intros E. unfold try_except. now rewrite E. Qed.

Lemma bind_save {B} (k : unit -> M B) s :
  bind save k s =
  k tt (mkState (file_id_cache s) (save_file_id_cache (file_id_cache s) (disk s))
                (uploaded s) (skipped s) (errors s) (clock s)
                (ESave (file_id_cache s) :: trace s)).
Proof. reflexivity. Qed.

Ltac leaf :=
  match goal with
  | |- exists new, trace ?t = app new (trace ?b) /\ _ =>
      let t' := eval cbn [trace call_state set_cache incr_uploaded incr_errors emit]
                in (trace t) in
      let l := prefix t' (trace b) in
      exists l; split; [reflexivity|]
  end.

Ltac sleeps_ok_tac :=
  repeat (apply Forall_cons;
          [first [ exact I | left; reflexivity
                 | right; do 3 eexists; split; [eassumption|reflexivity] ] |]);
  apply Forall_nil.

Ltac voice_one := unfold count_voice; cbn [filter is_call]; rewrite String.eqb_refl; reflexivity.

(** the [try] block uploads [p] once, sleeps one second if it gets through,
    and raises only what the transport raised *)
Lemma upload_once_delays total p s r s1 :
  upload_once transport total p s = (r, s1) ->
  exists new, trace s1 = app new (trace s) /\ count_voice p new = 1%nat /\
    sleeps_ok new /\ (r = Ok tt -> 1 <= count_sleeps new)%nat /\
    (forall e, r = Raised e -> exn_ok e).
Proof.
  intros H. unfold upload_once in H.
  destruct (tcall_cases (AnswerVoice p) s) as [[h E]|[e [He E]]].
  2: { rewrite (bind_raised _ _ _ _ _ E) in H. inversion H; subst. leaf.
       split; [voice_one|]. split; [sleeps_ok_tac|]. split; [discriminate|].
       intros e' Ee. inversion Ee; subst. exact He. }
  rewrite (bind_ok _ _ _ _ _ E), !bind_modify in H.
  destruct (tcall_cases (DeleteMessage p)
              (incr_uploaded (set_cache p h (call_state (AnswerVoice p) s))))
    as [[h' E']|[e [He E']]].
  2: { rewrite (bind_raised _ _ _ _ _ E') in H. inversion H; subst. leaf.
       split; [voice_one|]. split; [sleeps_ok_tac|]. split; [discriminate|].
       intros e' Ee. inversion Ee; subst. exact He. }
  rewrite (bind_ok _ _ _ _ _ E') in H. unfold sleep in H. rewrite bind_modify, bind_gets in H.
  destruct (Nat.eqb _ 0).
  2: { inversion H; subst. leaf.
       split; [voice_one|]. split; [sleeps_ok_tac|]. split; [intros _; cbn; lia|].
       intros e' Ee. discriminate. }
  rewrite bind_save in H. unfold ignore_retry_after in H.
  match type of H with
  | try_except (bind (tcall transport ?c) _) _ ?st = _ =>
      destruct (tcall_cases c st) as [[h'' E'']|[e [He E'']]]
  end.
  - rewrite (try_except_ok _ _ _ _ _ (bind_ok _ _ _ _ _ E'')) in H.
    inversion H; subst. leaf.
    split; [voice_one|]. split; [sleeps_ok_tac|]. split; [intros _; cbn; lia|].
    intros e' Ee. discriminate.
  - rewrite (try_except_raised _ _ _ _ _ (bind_raised _ _ _ _ _ E'')) in H.
    destruct e; inversion H; subst; leaf;
      (split; [voice_one|]); (split; [sleeps_ok_tac|]); (split; [intros _; cbn; lia|]).
    + intros e' Ee. discriminate.
    + intros e' Ee. inversion Ee; subst. exact I.
Qed.

Lemma bind_try {A B} (m : M A) h (k : A -> M B) s :
  bind (try_except m h) k s =
  match m s with
  | (Ok a, s') => k a s'
  | (Raised e, s') => bind (h e) k s'
  end.
Proof. unfold bind at 1, try_except. destruct (m s) as [[a|e] s']; reflexivity. Qed.

Lemma bind_ret {A B} (a : A) (k : A -> M B) s : bind (ret a) k s = k a s.
Proof. reflexivity. Qed.

(** the handlers sleep once when they complete, upload nothing, and sleep
    [retry_after + 2] seconds after a rate limit *)
Lemma on_failure_delays e s s1 :
  exn_ok e -> on_failure transport e s = (Ok tt, s1) ->
  exists new, trace s1 = app new (trace s) /\ (forall q, count_voice q new = 0%nat) /\
    count_sleeps new = 1%nat /\ sleeps_ok new.
Proof.
  intros Hok H. unfold on_failure in H. destruct e as [n|].
  - destruct Hok as [m [c Hmc]]. unfold ignore_retry_after in H. rewrite bind_try in H.
    destruct (tcall_cases (AnswerText (TPause n)) s) as [[h E]|[e [_ E]]].
    + rewrite (bind_ok _ _ _ _ _ E) in H. cbv beta iota delta [ret] in H.
      unfold sleep, modify in H. inversion H; subst. leaf.
      split; [intros q; reflexivity|]. split; [reflexivity|]. sleeps_ok_tac.
    + rewrite (bind_raised _ _ _ _ _ E) in H. cbv beta iota in H. destruct e.
      * rewrite bind_ret in H. unfold sleep, modify in H. inversion H; subst. leaf.
        split; [intros q; reflexivity|]. split; [reflexivity|]. sleeps_ok_tac.
      * unfold bind, raise in H. discriminate.
  - rewrite bind_modify in H. unfold sleep, modify in H. inversion H; subst. leaf.
    split; [intros q; reflexivity|]. split; [reflexivity|]. sleeps_ok_tac.
Qed.

(** one attempt uploads [p] once and sleeps at least once *)
Lemma attempt_delays total p s b s' :
  attempt transport total p s = (Ok b, s') ->
  exists new, trace s' = app new (trace s) /\ count_voice p new = 1%nat /\
    (1 <= count_sleeps new)%nat /\ sleeps_ok new.
Proof.
  intros H. unfold attempt in H.
  destruct (upload_once transport total p s) as [r1 s1] eqn:E1.
  destruct (upload_once_delays _ _ _ _ _ E1) as [n1 [T1 [V1 [O1 [S1 X1]]]]].
  destruct r1 as [u|e].
  - destruct u. rewrite (try_except_ok _ _ _ _ _ (bind_ok _ _ _ _ _ E1)) in H.
    inversion H; subst. exists n1. split; [exact T1|]. split; [exact V1|].
    split; [apply S1; reflexivity|exact O1].
  - rewrite (try_except_raised _ _ _ _ _ (bind_raised _ _ _ _ _ E1)) in H.
    destruct (on_failure transport e s1) as [[u2|e2] s2] eqn:E2.
    + rewrite (bind_ok _ _ _ _ _ E2) in H. inversion H; subst. destruct u2.
      destruct (on_failure_delays _ _ _ (X1 e eq_refl) E2) as [n2 [T2 [V2 [C2 O2]]]].
      exists (app n2 n1). split; [rewrite T2, T1; apply app_assoc|].
      rewrite count_voice_app, count_sleeps_app, V2, V1, C2.
      split; [reflexivity|]. split; [lia|]. apply Forall_app. split; assumption.
    + rewrite (bind_raised _ _ _ _ _ E2) in H. discriminate.
Qed.

Lemma retry_loop_delays fuel total p rc s r s' :
  retry_loop transport fuel total p rc s = (Ok r, s') ->
  exists new, trace s' = app new (trace s) /\
    (count_voice p new <= count_sleeps new)%nat /\ sleeps_ok new /\
    (0 < fuel -> rc < max_retries -> 1 <= count_voice p new)%nat.
Proof.
  revert rc s. induction fuel as [|fuel IH]; intros rc s H.
  - inversion H; subst. exists []. split; [reflexivity|]. split; [reflexivity|].
    split; [constructor|]. lia.
  - rewrite (retry_loop_S transport) in H. destruct (Nat.ltb rc max_retries) eqn:Hlt.
    + unfold bind in H. destruct (attempt transport total p s) as [[b|e] s1] eqn:Ea; [|discriminate].
      destruct (attempt_delays total p s b s1 Ea) as [n1 [T1 [C1 [S1 O1]]]].
      destruct b.
      * inversion H; subst. exists n1. split; [exact T1|]. split; [lia|].
        split; [exact O1|]. lia.
      * destruct (IH _ _ H) as [n2 [T2 [C2 [O2 _]]]]. exists (app n2 n1).
        split; [rewrite T2, T1; apply app_assoc|].
        rewrite count_voice_app, count_sleeps_app. split; [lia|].
        split; [apply Forall_app; split; assumption|]. lia.
    + inversion H; subst. exists []. split; [reflexivity|]. split; [reflexivity|].
      split; [constructor|]. apply Nat.ltb_ge in Hlt. lia.
Qed.

(** *** Each attempt and its delay *)

(** the replies to the calls of [l] (oldest first), the first one made
    when [n] calls came before *)
Fixpoint replies (n : nat) (l : list event) : list reply :=
  match l with
  | [] => []
  | ECall c :: r => transport n c :: replies (S n) r
  | _ :: r => replies n r
  end.

(** the delay the [except] clauses and the success path choose: the
    first failing reply decides it, one second when none failed *)
Fixpoint delay_for (rs : list reply) : nat :=
  match rs with
  | [] => 1%nat
  | ROk _ :: r => delay_for r
  | RRetryAfter n :: _ => (n + 2)%nat
  | RError :: _ => 1%nat
  end.

Definition is_ecall (e : event) : bool := match e with ECall _ => true | _ => false end.
Definition ncalls (l : list event) : nat := length (filter is_ecall l).

(** one attempt of [p], oldest event first, its first call made when [n]
    calls came before: it starts with [answer_voice(p)], makes no other
    upload of [p], and sleeps after the calls [pre] with the delay their
    replies decide *)
Definition attempt_block (p : string) (n : nat) (b : list event) : Prop :=
  exists pre d post,
    b = ECall (AnswerVoice p) :: app pre (ESleep d :: post) /\
    Forall (fun e => is_sleep e = false) pre /\
    Forall (fun e => is_call (AnswerVoice p) e = false) (app pre post) /\
    d = delay_for (replies n (ECall (AnswerVoice p) :: pre)).

Fixpoint attempt_blocks (p : string) (n : nat) (bs : list (list event)) : Prop :=
  match bs with
  | [] => True
  | b :: r => attempt_block p n b /\ attempt_blocks p (n + ncalls b) r
  end.

Lemma ncalls_app l1 l2 : ncalls (app l1 l2) = (ncalls l1 + ncalls l2)%nat.
Proof. unfold ncalls. now rewrite filter_app, length_app. Qed.

Lemma ncalls_rev l : ncalls (rev l) = ncalls l.
Proof.
  induction l as [|e l IH]; [reflexivity|]. simpl rev. rewrite ncalls_app, IH.
  unfold ncalls. simpl. destruct (is_ecall e); simpl; lia.
Qed.

Ltac split_sleep l :=
  match l with
  | ESleep ?d :: ?post => constr:((@nil event, d, post))
  | ?x :: ?r => let t := split_sleep r in
                match t with (?pre, ?d, ?post) => constr:((x :: pre, d, post)) end
  end.

Lemma attempt_block_ok total p s b s1 :
  attempt transport total p s = (Ok b, s1) ->
  exists new, trace s1 = app new (trace s) /\ clock s1 = (clock s + ncalls new)%nat /\
    attempt_block p (clock s) (rev new).
Proof.
  intros H. unfold attempt, upload_once, on_failure, ignore_retry_after, sleep in H.
  unfold bind, try_except, tcall, modify, gets, ret, raise, save in H.
  cbn [file_id_cache disk uploaded skipped errors clock trace] in H.
  unfold set_cache, incr_uploaded, incr_errors, emit in H.
  cbn [file_id_cache disk uploaded skipped errors clock trace] in H.
  repeat match type of H with
         | context [match transport ?n ?c with _ => _ end] => destruct (transport n c) eqn:?
         | context [if ?b then _ else _] => destruct b
         end;
  try discriminate; inversion H; subst.
  all: match goal with
       | |- exists new, trace ?t = app new (trace ?b) /\ _ =>
           let t' := eval cbn [trace] in (trace t) in
           let l := prefix t' (trace b) in exists l
       end.
  all: split; [reflexivity|]; split; [unfold ncalls; cbn; lia|]; simpl rev.
  all: unfold attempt_block;
       match goal with
       | |- exists pre d post, ECall _ :: ?rest = _ /\ _ =>
           let t := split_sleep rest in
           match t with (?pre, ?d, ?post) => exists pre, d, post end
       end.
  all: split; [reflexivity|]; split; [repeat constructor|]; split; [repeat constructor|].
  all: cbn [clock file_id_cache disk uploaded skipped errors trace] in *;
       cbn [replies delay_for app];
       repeat match goal with E : transport _ _ = _ |- _ => try rewrite E; clear E end;
       reflexivity.
Qed.

Lemma retry_loop_blocks fuel total p rc s r s' :
  retry_loop transport fuel total p rc s = (Ok r, s') ->
  exists bs, trace s' = app (rev (concat bs)) (trace s) /\
    clock s' = (clock s + ncalls (concat bs))%nat /\ attempt_blocks p (clock s) bs /\
    (0 < fuel -> rc < max_retries -> bs <> [])%nat.
Proof.
  revert rc s. induction fuel as [|fuel IH]; intros rc s H.
  - inversion H; subst. exists []. unfold ncalls. simpl. split; [reflexivity|]. split; [lia|].
    split; [exact I|]. intros Hf; exfalso; lia.
  - rewrite (retry_loop_S transport) in H. destruct (Nat.ltb rc max_retries) eqn:Hlt.
    + unfold bind in H. destruct (attempt transport total p s) as [[b|e] s1] eqn:Ea; [|discriminate].
      destruct (attempt_block_ok total p s b s1 Ea) as [n1 [T1 [C1 B1]]].
      destruct b.
      * inversion H; subst. exists [rev n1]. simpl concat. rewrite app_nil_r, rev_involutive.
        split; [exact T1|]. rewrite ncalls_rev. split; [exact C1|].
        split; [split; [exact B1|exact I]|]. intros _ _. discriminate.
      * destruct (IH _ _ H) as [bs [T2 [C2 [B2 _]]]]. exists (rev n1 :: bs).
        simpl concat. rewrite rev_app_distr, rev_involutive, <- app_assoc, <- T1.
        split; [exact T2|]. rewrite ncalls_app, ncalls_rev.
        split; [lia|]. split; [split; [exact B1|rewrite ncalls_rev, <- C1; exact B2]|].
        intros _ _. discriminate.
    + inversion H; subst. exists []. unfold ncalls. simpl. split; [reflexivity|]. split; [lia|].
      split; [exact I|]. apply Nat.ltb_ge in Hlt. intros _ Hr; exfalso; lia.
Qed.

End WithTransport.
End DelayFacts.

Import DelayFacts.

(** ten uncached entries [0.ogg] .. [9.ogg] *)
Definition ten_files : Dict.t string :=
  map (fun i => (String (ascii_of_nat (48 + i)) ".ogg", String (ascii_of_nat (48 + i)) ""))
      (seq 0 10).

(** a transport whose 21st call, the [delete] of the tenth uploaded
    message, is rate-limited for one second *)
Definition delete_rate_limited (n : nat) (c : call) : reply :=
  match c with
  | DeleteMessage _ => if Nat.eqb n 20 then RRetryAfter 1 else ROk ""
  | AnswerVoice r => ROk ("id-" ++ r)
  | AnswerText _ => ROk ""
  end.

Definition is_progress (e : event) : bool :=
  match e with ECall (AnswerText (TProgress _ _ _ _ _)) => true | _ => false end.

(** C8: the run over [ten_files] with [delete_rate_limited] completes and
    acquires all ten entries, but the rate limit on the tenth [delete] makes
    the tenth entry be uploaded again: [uploaded] goes 10, 11 and the
    checkpoint test [uploaded % 10 == 0] runs only at 11.  No progress
    message is sent and the cache is saved once, at the end. *)
Theorem upload_checkpoint_skipped :
  let s := snd (cmd_upload delete_rate_limited true ten_files
                  (mkState [] None 0 0 0 0 [])) in
  fst (cmd_upload delete_rate_limited true ten_files (mkState [] None 0 0 0 0 [])) = Ok tt /\
  length (file_id_cache s) = 10%nat /\
  (forall k, In k (Dict.keys ten_files) -> Dict.mem k (file_id_cache s) = true) /\
  uploaded s = 11%nat /\
  count_saves (trace s) = 1%nat /\ existsb is_progress (trace s) = false /\
  firstn 2 (trace s) = [ECall (AnswerText (TSummary 10 11 0 0)); ESave (file_id_cache s)].
Proof.
  intros s. vm_compute in s. subst s.
  split; [reflexivity|]. split; [reflexivity|].
  split; [|split; [reflexivity|split; [reflexivity|split; reflexivity]]].
  intros k Hk. simpl in Hk.
  repeat (destruct Hk as [<-|Hk]; [reflexivity|]). destruct Hk.
Qed.

(** C9, refuted: with both entries of [demo_files] cached, the run makes no
    upload and sleeps not at all. *)
Theorem upload_cached_no_delay :
  count_sleeps (trace (snd (cmd_upload failing_transport true demo_files
                  (mkState [("a.ogg", "H1"); ("b.ogg", "H2")] None 0 0 0 0 [])))) = 0%nat.
Proof. vm_compute. reflexivity. Qed.

(** C9, amended: the delays are tied to upload attempts, not to entries.
    A cache hit only counts a skip: no transport call and no sleep.  The
    events of an uncached entry whose processing completes split into one
    or more attempts, oldest first, each starting with its [answer_voice]
    call, with no other upload of the entry, and sleeping before the next
    attempt starts.  The first sleep of an attempt comes after its failing
    call or, on success, after the [delete]; it lasts [retry_after + 2]
    seconds when the first failing reply of the attempt was a rate limit
    carrying [retry_after], and one second after a generic error or a
    success. *)
Theorem upload_delays (transport : nat -> call -> reply) total p s r s' :
  process_entry transport total p s = (r, s') ->
  (Dict.mem p (file_id_cache s) = true ->
   r = Ok tt /\ s' = incr_skipped s /\ trace s' = trace s /\ clock s' = clock s) /\
  (Dict.mem p (file_id_cache s) = false -> r = Ok tt ->
   exists attempts, attempts <> [] /\
     trace s' = app (rev (concat attempts)) (trace s) /\
     attempt_blocks transport p (clock s) attempts).
Proof.
  intros H. unfold process_entry in H. rewrite bind_gets in H. split.
  - intros Hm. rewrite Hm in H. inversion H. auto.
  - intros Hm ->. rewrite Hm in H. unfold bind in H.
    destruct (retry_loop transport max_retries total p 0 s) as [[rc|e] s1] eqn:E;
      [|discriminate].
    inversion H; subst s1.
    destruct (retry_loop_blocks transport _ _ _ _ _ _ _ E) as [bs [T [_ [B Ne]]]].
    exists bs. split; [apply Ne; cbv; lia|]. split; [exact T|exact B].
Qed.

(** a transport that rate-limits the first upload for 4 seconds and then
    accepts everything *)
Definition first_upload_limited (n : nat) (c : call) : reply :=
  match c with
  | AnswerVoice r => if Nat.eqb n 0 then RRetryAfter 4 else ROk ("id-" ++ r)
  | _ => ROk ""
  end.

Lemma upload_delays_witness :
  let rs := process_entry first_upload_limited 2 "b.ogg" demo_s0 in
  (Dict.mem "b.ogg" (file_id_cache demo_s0) = true ->
   fst rs = Ok tt /\ snd rs = incr_skipped demo_s0 /\ trace (snd rs) = trace demo_s0 /\
   clock (snd rs) = clock demo_s0) /\
  (Dict.mem "b.ogg" (file_id_cache demo_s0) = false -> fst rs = Ok tt ->
   exists attempts, attempts <> [] /\
     trace (snd rs) = app (rev (concat attempts)) (trace demo_s0) /\
     attempt_blocks first_upload_limited "b.ogg" (clock demo_s0) attempts).
Proof.
  intros rs. apply (upload_delays first_upload_limited 2 "b.ogg" demo_s0).
  apply surjective_pairing.
Defined.

(** * Further properties of the code *)

(** ** Category statistics *)
Module StatsFacts.
Import DictFacts.

(** [stats.get(category, 0)] *)
Definition getd (c : string) (d : Dict.t nat) : nat :=
  match Dict.get c d with Some n => n | None => 0%nat end.

Definition stats_step (sep : ascii) (stats : Dict.t nat) (relative_path : string) : Dict.t nat :=
  let category := category_of sep relative_path in
  Dict.set category (getd category stats + 1)%nat stats.

Lemma stats_fold sep files :
  get_stats_by_category sep files = fold_left (stats_step sep) (Dict.keys files) [].
Proof. reflexivity. Qed.

(** the number of paths of [L] in category [c] *)
Definition in_category (sep : ascii) (c : string) (L : list string) : nat :=
  length (filter (fun k => String.eqb (category_of sep k) c) L).

Lemma sum_set k v (d : Dict.t nat) :
  (list_sum (map snd (Dict.set k v d)) + getd k d = list_sum (map snd d) + v)%nat.
Proof.
  unfold getd. induction d as [|[k' v'] r IH]; simpl; [lia|].
  destruct (String.eqb k k'); simpl; [lia|]. fold (Dict.get k r) in *. lia.
Qed.

Lemma stats_fold_pos sep L acc :
  (forall c, Dict.get c acc <> Some 0%nat) ->
  forall c, Dict.get c (fold_left (stats_step sep) L acc) <> Some 0%nat.
Proof.
  revert acc. induction L as [|k L IH]; intros acc H; simpl; [exact H|].
  apply IH. intros c. unfold stats_step. rewrite get_set.
  destruct (String.eqb c _); [intros E; inversion E; lia|apply H].
Qed.

Lemma stats_fold_getd sep L acc c :
  getd c (fold_left (stats_step sep) L acc) = (getd c acc + in_category sep c L)%nat.
Proof.
  revert acc. induction L as [|k L IH]; intros acc; simpl; [unfold in_category; simpl; lia|].
  rewrite IH. unfold in_category. simpl. fold (in_category sep c L).
  assert (S1 : getd c (stats_step sep acc k) =
               (getd c acc + if String.eqb (category_of sep k) c then 1 else 0)%nat).
  { unfold stats_step, getd at 1. rewrite get_set. rewrite (String.eqb_sym c).
    destruct (String.eqb (category_of sep k) c) eqn:E.
    - apply String.eqb_eq in E. subst. unfold getd. lia.
    - unfold getd. lia. }
  rewrite S1. unfold in_category. destruct (String.eqb (category_of sep k) c); simpl; lia.
Qed.

Lemma stats_fold_sum sep L acc :
  list_sum (map snd (fold_left (stats_step sep) L acc)) = (list_sum (map snd acc) + length L)%nat.
Proof.
  revert acc. induction L as [|k L IH]; intros acc; simpl; [lia|].
  rewrite IH. unfold stats_step. pose proof (sum_set (category_of sep k)
    (getd (category_of sep k) acc + 1) acc). lia.
Qed.

Lemma stats_fold_NoDup sep L acc :
  NoDup (Dict.keys acc) -> NoDup (Dict.keys (fold_left (stats_step sep) L acc)).
Proof.
  revert acc. induction L as [|k L IH]; intros acc H; simpl; [exact H|].
  apply IH. apply NoDup_set, H.
Qed.

(** the count of category [c] as a lookup in the statistics *)
Lemma stats_get sep files c :
  Dict.get c (get_stats_by_category sep files) =
  let n := in_category sep c (Dict.keys files) in
  if Nat.eqb n 0 then None else Some n.
Proof.
  rewrite stats_fold. cbv zeta.
  pose proof (stats_fold_getd sep (Dict.keys files) [] c) as G.
  pose proof (stats_fold_pos sep (Dict.keys files) [] (fun c' => ltac:(discriminate)) c) as P.
  unfold getd in G at 1. simpl in G.
  destruct (Dict.get c _) as [n|]; rewrite <- G.
  - destruct n; [congruence|reflexivity].
  - reflexivity.
Qed.

End StatsFacts.

(** [X1] [get_stats_by_category] has one entry per category, with no
    duplicate keys: the count of a category [c] is the number of catalog
    paths whose first [os.sep]-segment is [c], a category with no path has
    no entry, and the counts add up to the number of catalog entries. *)
Theorem stats_by_category_counts (sep : ascii) (audio_files : Dict.t string) :
  NoDup (Dict.keys (get_stats_by_category sep audio_files)) /\
  (forall c, Dict.get c (get_stats_by_category sep audio_files) =
     let n := length (filter (fun k => String.eqb (category_of sep k) c) (Dict.keys audio_files)) in
     if Nat.eqb n 0 then None else Some n) /\
  list_sum (map snd (get_stats_by_category sep audio_files)) = length audio_files.
Proof.
  split; [rewrite StatsFacts.stats_fold; apply StatsFacts.stats_fold_NoDup, NoDup_nil|].
  split; [apply StatsFacts.stats_get|].
  rewrite StatsFacts.stats_fold, StatsFacts.stats_fold_sum. unfold Dict.keys.
  rewrite length_map. reflexivity.
Qed.

(** ** Category listings *)
Module CategoryFacts.
Import StrFacts DictFacts WalkFacts.

Lemma prefix_contains ch p s :
  String.prefix p s = true -> contains ch p = true -> contains ch s = true.
Proof.
  revert s. induction p as [|a p IH]; intros s H Hc; [discriminate|].
  destruct s as [|b s]; [discriminate|]. simpl in H.
  destruct (ascii_dec a b) as [<-|]; [|discriminate].
  simpl in Hc |- *. apply orb_true_iff in Hc as [Hc|Hc]; rewrite ?Hc; [reflexivity|].
  now rewrite (IH s H Hc), orb_true_r.
Qed.

Lemma prefix_nil s : String.prefix EmptyString s = true.
Proof. now destruct s. Qed.

Lemma contains_last ch c : contains ch (c ++ String ch EmptyString) = true.
Proof. rewrite contains_app. simpl. now rewrite Ascii.eqb_refl, orb_true_r. Qed.

(** [(c + a).startswith] on [x + b + r], [c] free of [b], [x] free of [a] *)
Lemma prefix_app_sep c x a b r :
  contains b c = false -> contains a x = false ->
  String.prefix (c ++ String a EmptyString) (x ++ String b r) = Ascii.eqb a b && String.eqb c x.
Proof.
  revert x. induction c as [|a' c IH]; intros x Hc Hx.
  - destruct x as [|b' x]; simpl.
    + destruct (ascii_dec a b) as [<-|Hab]; [now rewrite Ascii.eqb_refl, prefix_nil|].
      symmetry. apply andb_false_iff. left. now apply Ascii.eqb_neq.
    + apply orb_false_iff in Hx as [Hx _].
      destruct (ascii_dec a b') as [<-|_]; [now rewrite Ascii.eqb_refl in Hx|].
      now rewrite andb_false_r.
  - simpl in Hc. apply orb_false_iff in Hc as [Hc1 Hc2].
    destruct x as [|b' x]; simpl.
    + destruct (ascii_dec a' b) as [<-|_]; [now rewrite Ascii.eqb_refl in Hc1|].
      now rewrite andb_false_r.
    + simpl in Hx. apply orb_false_iff in Hx as [_ Hx2].
      destruct (ascii_dec a' b') as [<-|Hne].
      * rewrite IH by assumption. now rewrite Ascii.eqb_refl.
      * apply Ascii.eqb_neq in Hne. now rewrite Hne, !andb_false_r.
Qed.

Definition free2 (x : string) : Prop :=
  contains slash x = false /\ contains backslash x = false.

Lemma free2_sep sep x : (sep = slash \/ sep = backslash) -> free2 x -> contains sep x = false.
Proof. intros [-> | ->] [H1 H2]; assumption. Qed.

Lemma contains_relpath_other ch sep segs f :
  ch <> sep -> Forall (fun x => contains ch x = false) (app segs [f]) ->
  contains ch (relpath (String sep EmptyString) segs f) = false.
Proof. intros Hne H. apply contains_join_other; assumption. Qed.

(** the listing test of [send_category_sounds] on a catalog key *)
Definition listed (c path : string) : bool :=
  startswith (c ++ "/") path || startswith (c ++ "\") path.

Lemma listed_relpath sep c segs f :
  (sep = slash \/ sep = backslash) -> free2 c -> Forall free2 (app segs [f]) ->
  listed c (relpath (String sep EmptyString) segs f) =
  match segs with [] => false | d :: _ => String.eqb c d end.
Proof.
  intros Hsep [Hc1 Hc2] Hall. unfold listed, startswith.
  change "/" with (String slash EmptyString). change "\" with (String backslash EmptyString).
  destruct segs as [|d rest].
  - unfold relpath. simpl. inversion Hall as [|? ? [Hf1 Hf2] _]; subst.
    destruct (String.prefix (c ++ String slash "") f) eqn:E1.
    { apply (prefix_contains slash) in E1; [congruence|apply contains_last]. }
    destruct (String.prefix (c ++ String backslash "") f) eqn:E2; [|reflexivity].
    apply (prefix_contains backslash) in E2; [congruence|apply contains_last].
  - inversion Hall as [|? ? [Hd1 Hd2] Hr]; subst.
    unfold relpath. simpl app.
    destruct (app rest [f]) as [|y r] eqn:Er; [destruct rest; discriminate|].
    change (PyStr.join (String sep "") (d :: y :: r))
      with (d ++ String sep (PyStr.join (String sep "") (y :: r))).
    assert (Hcs : contains sep c = false) by (destruct Hsep; subst; assumption).
    rewrite !prefix_app_sep by assumption.
    destruct Hsep; subst; simpl; rewrite ?andb_false_l, ?orb_false_r; reflexivity.
Qed.

Lemma category_of_relpath sep segs f :
  Forall (fun x => contains sep x = false) (app segs [f]) ->
  category_of sep (relpath (String sep EmptyString) segs f) =
  match segs with [] => f | d :: _ => d end.
Proof.
  intros H. unfold category_of, relpath. rewrite split_join by (assumption || (destruct segs; discriminate)).
  destruct segs; reflexivity.
Qed.

Lemma catalog_entry sep root k v :
  In (k, v) (build_catalog (String sep EmptyString) (Some root)) ->
  exists segs f, file_at root segs f /\ recognized f = true /\
                 k = relpath (String sep EmptyString) segs f.
Proof.
  intros Hin. assert (Hk : In k (Dict.keys (build_catalog (String sep "") (Some root))))
    by (apply in_map_iff; now exists (k, v)).
  apply get_In, mem_get in Hk. rewrite build_catalog_fold in Hk.
  destruct (Dict.get k _) as [v'|] eqn:Hv; [|congruence].
  apply fold_catalog_sound in Hv as [Hv|[segs [f [Hw [Hr [Hk' _]]]]]]; [discriminate|].
  exists segs, f. split; [now apply walk_root_iff|]. auto.
Qed.

Lemma length_filter_pairs (P : string -> bool) (d : Dict.t string) :
  length (filter (fun '(path, _) => P path) d) = length (filter P (Dict.keys d)).
Proof.
  induction d as [|[k v] r IH]; simpl; [reflexivity|].
  destruct (P k); simpl; rewrite IH; reflexivity.
Qed.

End CategoryFacts.

(** [X2] The category listing of [/protoss], [/terran], [/zerg] and
    [/music].  Let every file and directory name, and the category [c],
    contain neither [/] nor [\], and let [os.sep] be one of them.  The
    entries listed for [c] are exactly the catalog entries of the files
    inside the top-level directory [c], at any depth; when no audio file at
    the root is itself named [c], their number is the count [cmd_stats]
    reports for [c], and there is no count when the listing is empty. *)
Theorem category_listing (sep : ascii) (root : list node) (c : string) :
  (sep = slash \/ sep = backslash) ->
  (forall segs f, WalkFacts.file_at root segs f ->
     Forall (fun x => StrFacts.contains slash x = false /\
                      StrFacts.contains backslash x = false) (app segs [f])) ->
  StrFacts.contains slash c = false -> StrFacts.contains backslash c = false ->
  let cat := build_catalog (String sep EmptyString) (Some root) in
  (forall k v, In (k, v) (category_files c cat) <->
     In (k, v) cat /\
     exists rest f, WalkFacts.file_at root (c :: rest) f /\
                    k = relpath (String sep EmptyString) (c :: rest) f) /\
  (~ (WalkFacts.file_at root [] c /\ recognized c = true) ->
   Dict.get c (get_stats_by_category sep cat) =
   match length (category_files c cat) with 0%nat => None | n => Some n end).
Proof.
  intros Hsep Hnames Hc1 Hc2 cat.
  assert (Hc : CategoryFacts.free2 c) by (split; assumption).
  assert (Hkey : forall k v, In (k, v) cat ->
            exists segs f, WalkFacts.file_at root segs f /\ recognized f = true /\
              k = relpath (String sep EmptyString) segs f /\
              Forall CategoryFacts.free2 (app segs [f]))
    by (intros k v Hin; destruct (CategoryFacts.catalog_entry _ _ _ _ Hin)
          as [segs [f [Hf [Hr ->]]]]; exists segs, f; auto).
  assert (Hsepf : forall segs f, Forall CategoryFacts.free2 (app segs [f]) ->
            Forall (fun x => StrFacts.contains sep x = false) (app segs [f]))
    by (intros segs f H; eapply Forall_impl; [|exact H];
        intros x; now apply CategoryFacts.free2_sep).
  split.
  - intros k v. unfold category_files. rewrite filter_In.
    fold (CategoryFacts.listed c k). split.
    + intros [Hin Hl]. split; [exact Hin|].
      destruct (Hkey _ _ Hin) as [segs [f [Hf [_ [-> Hfree]]]]].
      rewrite CategoryFacts.listed_relpath in Hl by assumption.
      destruct segs as [|d rest]; [discriminate|]. apply String.eqb_eq in Hl. subst d.
      exists rest, f. auto.
    + intros [Hin [rest [f' [Hf' Hk]]]]. split; [exact Hin|].
      destruct (Hkey _ _ Hin) as [segs [f [Hf [_ [Hk2 Hfree]]]]].
      assert (Hfree' := Hnames _ _ Hf').
      rewrite Hk2 in Hk.
      destruct (WalkFacts.relpath_inj sep segs f (c :: rest) f' (Hsepf _ _ Hfree)
                  (Hsepf _ _ Hfree') Hk) as [-> ->].
      rewrite Hk2, CategoryFacts.listed_relpath by assumption. apply String.eqb_refl.
  - intros Hrc. rewrite StatsFacts.stats_get. cbv zeta.
    unfold category_files. rewrite (CategoryFacts.length_filter_pairs (CategoryFacts.listed c)).
    unfold StatsFacts.in_category.
    rewrite (filter_ext_in _ (CategoryFacts.listed c)).
    + destruct (length _); reflexivity.
    + intros k Hk. apply in_map_iff in Hk as [[k' v] [Ek Hin]]. simpl in Ek. subst k'.
      destruct (Hkey _ _ Hin) as [segs [f [Hf [Hr [-> Hfree]]]]].
      rewrite CategoryFacts.listed_relpath, CategoryFacts.category_of_relpath by auto.
      destruct segs as [|d rest]; [|apply String.eqb_sym].
      apply String.eqb_neq. intros ->. apply Hrc. split; assumption.
Qed.

(** a tree with two categories and an audio file at the root *)
Definition listing_tree : list node :=
  [Dir "protoss" [File "a.ogg"; Dir "zealot" [File "b.wav"]]; Dir "zerg" [File "c.ogg"];
   File "x.ogg"].

Lemma listing_tree_names :
  forall segs f, WalkFacts.file_at listing_tree segs f ->
    Forall (fun x => StrFacts.contains slash x = false /\
                     StrFacts.contains backslash x = false) (app segs [f]).
Proof.
  intros segs f H. apply Forall_and.
  - exact (WalkFacts.names_free_of_walk slash listing_tree eq_refl segs f H).
  - exact (WalkFacts.names_free_of_walk backslash listing_tree eq_refl segs f H).
Qed.

Lemma category_listing_witness :
  (slash = slash \/ slash = backslash) /\
  StrFacts.contains slash "protoss" = false /\ StrFacts.contains backslash "protoss" = false /\
  let cat := build_catalog (String slash EmptyString) (Some listing_tree) in
  (forall k v, In (k, v) (category_files "protoss" cat) <->
     In (k, v) cat /\
     exists rest f, WalkFacts.file_at listing_tree ("protoss" :: rest) f /\
                    k = relpath (String slash EmptyString) ("protoss" :: rest) f) /\
  (~ (WalkFacts.file_at listing_tree [] "protoss" /\ recognized "protoss" = true) ->
   Dict.get "protoss" (get_stats_by_category slash cat) =
   match length (category_files "protoss" cat) with 0%nat => None | n => Some n end).
Proof.
  split; [left; reflexivity|]. split; [reflexivity|]. split; [reflexivity|].
  apply (category_listing slash listing_tree "protoss").
  - left; reflexivity.
  - exact listing_tree_names.
  - reflexivity.
  - reflexivity.
Defined.

(** ** The statistics message *)
Module StatsTextFacts.

Lemma length_marker : length truncated_marker = 17%nat.
Proof. reflexivity. Qed.

Lemma prefix_cons a p b s :
  String.prefix (String a p) (String b s) =
  match ascii_dec a b with left _ => String.prefix p s | right _ => false end.
Proof. reflexivity. Qed.

Lemma prefix_app_l p q s : String.prefix (p ++ q) s = true -> String.prefix p s = true.
Proof.
  revert s. induction p as [|a p IH]; intros s H; [now destruct s|].
  destruct s as [|b s]; [discriminate|]. simpl in H |- *.
  destruct (ascii_dec a b); [now apply IH|discriminate].
Qed.

(** a path cannot start with both [c + '/'] and [c + x] when [x] does not
    start with ['/'] *)
Lemma prefix_exclusive c y x s :
  y <> slash ->
  String.prefix (c ++ "/") s = true -> String.prefix (c ++ String y x) s = false.
Proof.
  intros Hy. unfold slash in Hy. revert s.
  induction c as [|a c IH]; intros s H; (destruct s as [|b s]; [discriminate|]);
    cbn [append] in H |- *; rewrite prefix_cons in H |- *.
  - destruct (ascii_dec "/"%char b) as [<-|]; [|discriminate].
    destruct (ascii_dec y "/"%char); [congruence|reflexivity].
  - destruct (ascii_dec a b); [now apply IH|reflexivity].
Qed.

Lemma count_disjoint (p q r : string -> bool) (l : list string) :
  (forall k, p k = true -> r k = true) -> (forall k, q k = true -> r k = true) ->
  (forall k, p k = true -> q k = false) ->
  (length (filter p l) + length (filter q l) <= length (filter r l))%nat.
Proof.
  intros Hp Hq Hpq. induction l as [|k l IH]; simpl; [lia|].
  destruct (p k) eqn:Ep.
  - rewrite (Hp k Ep), (Hpq k Ep). simpl. lia.
  - destruct (q k) eqn:Eq.
    + rewrite (Hq k Eq). simpl. lia.
    + destruct (r k); simpl; lia.
Qed.

End StatsTextFacts.

(** [X3] The [/stats] answer.  Only the admin gets one.  It is never longer
    than 4000 characters: a text of at most 4000 characters is sent as
    built, a longer one is cut to its first 3900 characters followed by the
    17-character marker [\n\n... (truncated)], 3917 characters in all. *)
Theorem stats_message_bounded (admin : bool) (sep : ascii) (audio_files file_id_cache : Dict.t string) :
  let full := stats_text sep audio_files file_id_cache in
  (admin = false -> cmd_stats admin sep audio_files file_id_cache = None) /\
  (admin = true -> exists t, cmd_stats admin sep audio_files file_id_cache = Some t /\
     (length t <= 4000)%nat /\
     ((length full <= 4000)%nat -> t = full) /\
     ((4000 < length full)%nat ->
        t = app (firstn 3900 full) truncated_marker /\ length t = 3917%nat)).
Proof.
  intros full. split; [intros ->; reflexivity|]. intros ->.
  eexists. split; [reflexivity|]. fold full. unfold truncate_stats.
  destruct (Nat.ltb 4000 (length full)) eqn:E.
  - apply Nat.ltb_lt in E.
    assert (L : length (app (firstn 3900 full) truncated_marker) = 3917%nat)
      by (rewrite length_app, StatsTextFacts.length_marker, firstn_length_le by lia; reflexivity).
    split; [rewrite L; lia|]. split; [lia|]. auto.
  - apply Nat.ltb_ge in E. split; [exact E|]. split; [reflexivity|lia].
Qed.

(** [X4] The cached count of a category in [/stats] counts every cached
    path that starts with the category name, separator or not.  For a
    category [c] and any extension [x] of its name not starting with [/]
    (e.g. [zerg] and [zerg_extra]), the cached paths under [c/] and those
    starting with [c + x] are all counted for [c]. *)
Theorem cached_in_cat_overcounts (c : string) (y : ascii) (x : string)
    (file_id_cache : Dict.t string) :
  y <> slash ->
  (length (filter (fun k => startswith (c ++ "/") k) (Dict.keys file_id_cache))
   + cached_in_cat (c ++ String y x) file_id_cache
   <= cached_in_cat c file_id_cache)%nat.
Proof.
  intros Hy. unfold cached_in_cat. apply StatsTextFacts.count_disjoint; unfold startswith.
  - intros k. apply StatsTextFacts.prefix_app_l.
  - intros k. apply StatsTextFacts.prefix_app_l.
  - intros k. now apply StatsTextFacts.prefix_exclusive.
Qed.

Lemma cached_in_cat_overcounts_witness :
  "_"%char <> slash /\
  (length (filter (fun k => startswith ("zerg" ++ "/") k)
                  (Dict.keys [("zerg/a.ogg", "h1"); ("zerg_extra/b.ogg", "h2")]))
   + cached_in_cat ("zerg" ++ String "_" "extra") [("zerg/a.ogg", "h1"); ("zerg_extra/b.ogg", "h2")]
   <= cached_in_cat "zerg" [("zerg/a.ogg", "h1"); ("zerg_extra/b.ogg", "h2")])%nat.
Proof.
  split; [discriminate|].
  apply (cached_in_cat_overcounts "zerg" "_" "extra"). discriminate.
Defined.

(** ** Loading the handle cache *)
Module LoadFacts.
Import DictFacts CacheFacts.

Lemma hd_error_snoc {A} (l : list A) (v : A) :
  hd_error (app l [v]) = match hd_error l with Some w => Some w | None => Some v end.
Proof. now destruct l. Qed.

(** the last entry of [M] whose normalized path is [k] wins *)
Lemma normalize_fold_get k M acc :
  Dict.get k (fold_left normalize_step M acc) =
  match hd_error (rev (map snd (filter (fun '(p, _) =>
          String.eqb (PyStr.replace backslash slash p) k) M))) with
  | Some v => Some v
  | None => Dict.get k acc
  end.
Proof.
  revert acc. induction M as [|[p v] M IH]; intros acc; simpl; [reflexivity|].
  rewrite IH. unfold normalize_step. rewrite get_set, (String.eqb_sym k).
  destruct (String.eqb (PyStr.replace backslash slash p) k); simpl; [|reflexivity].
  rewrite hd_error_snoc. destruct (hd_error _); reflexivity.
Qed.

End LoadFacts.

(** [X5] Loading the cache file: with no file the cache is empty; otherwise
    the handle of a path [k] is the handle of the last entry of the file
    whose key, with every [\] replaced by [/], is [k], and [k] has no handle
    when there is no such entry. *)
Theorem load_cache_lookup (f : cache_file) (k : string) :
  Dict.get k (load_file_id_cache f) =
  match f with
  | None => None
  | Some cache =>
      hd_error (rev (map snd (filter (fun '(p, _) =>
        String.eqb (PyStr.replace backslash slash p) k) cache)))
  end.
Proof.
  destruct f as [cache|]; [|reflexivity]. simpl.
  rewrite CacheFacts.normalize_cache_fold, LoadFacts.normalize_fold_get.
  destruct (hd_error _); reflexivity.
Qed.

(** ** Reloading the catalog *)
Module ReloadFacts.
Import StrFacts DictFacts WalkFacts.

Lemma set_same {V} k (v : V) d : Dict.get k d = Some v -> Dict.set k v d = d.
Proof.
  induction d as [|[k' v'] r IH]; simpl; [discriminate|].
  destruct (String.eqb k k'); [congruence|]. intros H. now rewrite IH.
Qed.

Lemma load_fold sep root d :
  load_audio_files sep (Some root) d = fold_left (catalog_step sep) (walk_root root) d.
Proof. reflexivity. Qed.

(** no two entries of [L] give one key for different files *)
Definition key_determines_file (sep : string) (L : list (list string * string)) : Prop :=
  forall segs f segs' f', In (segs, f) L -> In (segs', f') L ->
    relpath sep segs f = relpath sep segs' f' -> f = f'.

Lemma fold_catalog_other sep L acc k :
  (forall segs f, In (segs, f) L -> recognized f = true -> k <> relpath sep segs f) ->
  Dict.get k (fold_left (catalog_step sep) L acc) = Dict.get k acc.
Proof.
  revert acc. induction L as [|[segs f] L IH]; intros acc H; simpl; [reflexivity|].
  rewrite IH by (intros; apply H; auto; now right). unfold catalog_step.
  destruct (recognized f) eqn:Hr; [|reflexivity].
  apply get_set_other, (H segs f (or_introl eq_refl) Hr).
Qed.

Lemma fold_catalog_hold sep L acc k v :
  (forall segs f, In (segs, f) L -> recognized f = true -> relpath sep segs f = k ->
     display_name k f = v) ->
  Dict.get k acc = Some v -> Dict.get k (fold_left (catalog_step sep) L acc) = Some v.
Proof.
  revert acc. induction L as [|[segs f] L IH]; intros acc H Hk; simpl; [exact Hk|].
  apply IH; [intros segs' f' Hin' Hr' Hk'; apply (H segs' f'); auto; now right|].
  unfold catalog_step.
  destruct (recognized f) eqn:Hr; [|exact Hk]. rewrite get_set.
  destruct (String.eqb k (relpath sep segs f)) eqn:E; [|exact Hk].
  apply String.eqb_eq in E. rewrite <- E. f_equal. apply (H segs f); auto. now left.
Qed.

Lemma fold_catalog_value sep L acc segs f :
  key_determines_file sep L -> In (segs, f) L -> recognized f = true ->
  Dict.get (relpath sep segs f) (fold_left (catalog_step sep) L acc)
  = Some (display_name (relpath sep segs f) f).
Proof.
  intros Hkd. revert acc. induction L as [|[segs0 f0] L IH]; intros acc Hin Hr; simpl;
    [contradiction|].
  assert (Hkd' : key_determines_file sep L)
    by (intros ? ? ? ? H1 H2; apply Hkd; now right).
  destruct Hin as [E|Hin]; [|now apply IH].
  inversion E; subst segs0 f0. apply fold_catalog_hold.
  - intros segs' f' Hin' _ Hk. f_equal. symmetry.
    apply (Hkd segs f segs' f'); [now left|now right|congruence].
  - unfold catalog_step. rewrite Hr, get_set, String.eqb_refl. reflexivity.
Qed.

Lemma fold_catalog_noop sep L A :
  (forall segs f, In (segs, f) L -> recognized f = true ->
     Dict.get (relpath sep segs f) A = Some (display_name (relpath sep segs f) f)) ->
  fold_left (catalog_step sep) L A = A.
Proof.
  induction L as [|[segs f] L IH]; intros H; cbn [fold_left]; [reflexivity|].
  unfold catalog_step at 2. destruct (recognized f) eqn:Hr.
  - rewrite set_same by (apply H; [now left|exact Hr]). apply IH. intros; apply H; auto. now right.
  - apply IH. intros; apply H; auto. now right.
Qed.

End ReloadFacts.

(** [X6] Reloading ([main] calls [_load_audio_files] again on every
    restart, on the same [AudioManager]).  When the directory is missing
    nothing changes.  Otherwise a reload never removes an entry, and the
    entry of a path that no audio file of the tree has (a file deleted
    since) keeps its old display name; and when no name contains
    [os.sep], loading the same tree again changes nothing. *)
Theorem reload_keeps_entries (sep : ascii) (root : list node) (audio_files : Dict.t string) :
  let os_sep := String sep EmptyString in
  load_audio_files os_sep None audio_files = audio_files /\
  (forall k, Dict.get k audio_files <> None ->
     Dict.get k (load_audio_files os_sep (Some root) audio_files) <> None) /\
  (forall k, (forall segs f, WalkFacts.file_at root segs f -> recognized f = true ->
                k <> relpath os_sep segs f) ->
     Dict.get k (load_audio_files os_sep (Some root) audio_files) = Dict.get k audio_files) /\
  ((forall segs f, WalkFacts.file_at root segs f ->
      Forall (fun x => StrFacts.contains sep x = false) (app segs [f])) ->
   load_audio_files os_sep (Some root) (load_audio_files os_sep (Some root) audio_files)
   = load_audio_files os_sep (Some root) audio_files).
Proof.
  intros os_sep. split; [reflexivity|]. split; [|split].
  - intros k Hk. rewrite ReloadFacts.load_fold. now apply WalkFacts.fold_catalog_keep.
  - intros k Hk. rewrite ReloadFacts.load_fold. apply ReloadFacts.fold_catalog_other.
    intros segs f Hin Hr. apply Hk; [now apply WalkFacts.walk_root_iff|exact Hr].
  - intros Hnames. rewrite !ReloadFacts.load_fold.
    assert (Hkd : ReloadFacts.key_determines_file os_sep (walk_root root)).
    { intros segs f segs' f' H1 H2 E.
      apply WalkFacts.walk_root_iff in H1, H2.
      exact (proj2 (WalkFacts.relpath_inj sep segs f segs' f' (Hnames _ _ H1) (Hnames _ _ H2) E)). }
    apply ReloadFacts.fold_catalog_noop. intros segs f Hin Hr.
    now apply ReloadFacts.fold_catalog_value.
Qed.

(** ** Search results and inline answers *)
Module ResultFacts.
Import DictFacts SearchFacts.

Lemma get_nth_NoDup (files : Dict.t string) i k v :
  NoDup (Dict.keys files) -> nth_error files i = Some (k, v) -> Dict.get k files = Some v.
Proof.
  revert i. induction files as [|[k' v'] r IH]; intros i Hnd Hi; [destruct i; discriminate|].
  inversion Hnd as [|? ? Hk' Hnd']; subst. simpl.
  destruct i as [|i]; simpl in Hi.
  - inversion Hi; subst. now rewrite String.eqb_refl.
  - destruct (String.eqb k k') eqn:E.
    + apply String.eqb_eq in E. subst k'. exfalso. apply Hk'.
      apply in_map_iff. exists (k, v). split; [reflexivity|]. eapply nth_error_In; exact Hi.
    + now apply (IH i).
Qed.

Lemma not_after_score (partial_ratio : string -> string -> Q) (a b : scored) :
  not_after a b -> (snd (fst b) <= snd (fst a))%Q.
Proof.
  unfold not_after. intros H. destruct a as [[ca sa] ia], b as [[cb sb] ib]. simpl.
  apply Qnot_lt_le. intros Hlt.
  assert (ranks_before (cb, sb, ib) (ca, sa, ia) = true) by (apply ranks_before_iff; now left).
  congruence.
Qed.

Lemma flat_map_sorted (files : Dict.t string) (l : list scored) :
  StronglySorted not_after l ->
  StronglySorted (fun a b : string * string * Q => (snd b <= snd a)%Q)
    (flat_map (fun '(display_name, score, _) =>
                 if negb (Qle_bool score 30) then
                   match first_path display_name files with
                   | Some rel_path => [(rel_path, display_name, score)]
                   | None => []
                   end
                 else []) l).
Proof.
  induction l as [|[[d s] j] l IH]; intros Hs; simpl; [constructor|].
  inversion Hs as [|? ? Hs' Hf]; subst.
  destruct (negb (Qle_bool s 30)); [|now apply IH].
  destruct (first_path d files) as [r|]; [|now apply IH]. simpl.
  constructor; [now apply IH|]. apply Forall_forall. intros [[r' d'] s'] Hin.
  apply in_flat_map in Hin as [[[d'' s''] j''] [Hx Hy]].
  eapply Forall_forall in Hf; [|exact Hx].
  apply (not_after_score (fun _ _ => 0%Q)) in Hf. simpl in Hf |- *.
  destruct (negb (Qle_bool s'' 30)); [|contradiction].
  destruct (first_path d'' files); [|contradiction].
  destruct Hy as [Hy|[]]. inversion Hy; subst. exact Hf.
Qed.

Lemma build_inline_nil file_id_cache idx results :
  build_inline file_id_cache idx results = [] <->
  forall r dn sc, In (r, dn, sc) results -> Dict.get r file_id_cache = None.
Proof.
  revert idx. induction results as [|[[r dn] sc] rs IH]; intros idx; simpl.
  - split; [intros _ ? ? ? []|reflexivity].
  - destruct (Dict.get r file_id_cache) as [fid|] eqn:E.
    + split; [discriminate|]. intros H. rewrite (H r dn sc (or_introl eq_refl)) in E.
      discriminate.
    + rewrite IH. split.
      * intros H r' dn' sc' [Hx|Hx]; [inversion Hx; subst; exact E|exact (H _ _ _ Hx)].
      * intros H r' dn' sc' Hx. exact (H _ _ _ (or_intror Hx)).
Qed.

End ResultFacts.

(** [X7] Search results.  On a catalog with distinct keys every result
    [(relative_path, display_name, score)] is a catalog entry: the path's
    display name is [display_name]; and results come in non-increasing
    score order. *)
Theorem search_results_ordered (partial_ratio : string -> string -> Q)
    (audio_files : Dict.t string) (query : string) (limit : nat) :
  NoDup (Dict.keys audio_files) ->
  (forall r dn sc, In (r, dn, sc) (search partial_ratio audio_files query limit) ->
     Dict.get r audio_files = Some dn) /\
  StronglySorted (fun a b : string * string * Q => (snd b <= snd a)%Q)
    (search partial_ratio audio_files query limit).
Proof.
  intros Hnd. split.
  - intros r dn sc Hin.
    destruct (SearchFacts.in_search partial_ratio _ _ _ _ _ _ Hin) as [_ [Hf _]].
    destruct (SearchFacts.first_path_spec _ _ _ Hf) as [i [Hi _]].
    exact (ResultFacts.get_nth_NoDup _ _ _ _ Hnd Hi).
  - unfold search. destruct (String.eqb query ""); [constructor|].
    apply ResultFacts.flat_map_sorted. unfold extract.
    apply InlineFacts.StronglySorted_firstn, SearchFacts.rank_sorted.
Qed.

Lemma search_results_ordered_witness :
  NoDup (Dict.keys dup_catalog) /\
  (forall r dn sc, In (r, dn, sc) (search toy_ratio dup_catalog "a" 5) ->
     Dict.get r dup_catalog = Some dn) /\
  StronglySorted (fun a b : string * string * Q => (snd b <= snd a)%Q)
    (search toy_ratio dup_catalog "a" 5).
Proof.
  split; [exact dup_catalog_NoDup|].
  apply search_results_ordered. exact dup_catalog_NoDup.
Defined.

(** [X8] The inline answer's [cache_time] is 1 exactly when no result is
    sent, and 300 otherwise; no result is sent exactly when none of the
    (at most 20) search results for the stripped query has a cached
    handle. *)
Theorem inline_cache_time (partial_ratio : string -> string -> Q)
    (audio_files file_id_cache : Dict.t string) (inline_query : string) :
  let answer := inline_query_handler partial_ratio audio_files file_id_cache inline_query in
  (snd answer = 1%nat <-> fst answer = []) /\
  (snd answer = 1%nat \/ snd answer = 300%nat) /\
  (fst answer = [] <->
   forall r dn sc, In (r, dn, sc) (search partial_ratio audio_files (PyStr.strip inline_query) 20) ->
     Dict.get r file_id_cache = None).
Proof.
  unfold inline_query_handler. cbv zeta.
  destruct (search partial_ratio audio_files (PyStr.strip inline_query) 20) as [|x xs] eqn:Hs.
  { cbn [fst snd]. split; [tauto|]. split; [now left|]. split; [intros _ ? ? ? []|reflexivity]. }
  pose proof (ResultFacts.build_inline_nil file_id_cache 0 (x :: xs)) as B.
  destruct (build_inline file_id_cache 0 (x :: xs)) as [|y ys] eqn:Hb.
  { cbn [fst snd]. split; [tauto|]. split; [now left|]. exact B. }
  cbn [fst snd firstn]. split; [split; discriminate|]. split; [now right|].
  split; [discriminate|]. intros H. apply B in H. discriminate.
Qed.

(** ** The upload run *)
Module UploadFacts.
Import Upload PipelineFacts DelayFacts DictFacts.

(** the cache and the cache file are untouched *)
Definition SameStore (s s' : state) : Prop :=
  file_id_cache s' = file_id_cache s /\ disk s' = disk s.

#[export] Instance SameStore_preorder : PreOrder SameStore.
Proof.
  split; [intros s; split; reflexivity|].
  intros s1 s2 s3 [A1 B1] [A2 B2]. split; congruence.
Qed.

(** no upload of [p] is added to the trace *)
Definition NoVoice (p : string) (s s' : state) : Prop :=
  exists new, trace s' = app new (trace s) /\ count_voice p new = 0%nat.

#[export] Instance NoVoice_preorder p : PreOrder (NoVoice p).
Proof.
  split; [intros s; exists []; split; reflexivity|].
  intros s1 s2 s3 [n1 [T1 C1]] [n2 [T2 C2]]. exists (app n2 n1).
  split; [rewrite T2, T1; apply app_assoc|]. rewrite count_voice_app. lia.
Qed.

Lemma opt_string_dec (a b : option string) : {a = b} + {a <> b}.
Proof. decide equality. apply string_dec. Defined.

Section WithTransport.
Variable transport : nat -> call -> reply.

(** every handle that changes is one the transport returned for uploading
    that path *)
Definition Prov (s s' : state) : Prop :=
  forall k, Dict.get k (file_id_cache s') <> Dict.get k (file_id_cache s) ->
  exists n h, Dict.get k (file_id_cache s') = Some h /\ transport n (AnswerVoice k) = ROk h.

#[export] Instance Prov_preorder : PreOrder Prov.
Proof.
  split; [intros s k H; congruence|].
  intros s1 s2 s3 H12 H23 k Hk.
  destruct (opt_string_dec (Dict.get k (file_id_cache s3)) (Dict.get k (file_id_cache s2)))
    as [E|E].
  - rewrite E in Hk |- *. exact (H12 k Hk).
  - exact (H23 k E).
Qed.








(** outside [process_all], a run keeps the cache and, after its [save],
    the cache file *)
Lemma cmd_upload_store admin all_files s0 r s :
  cmd_upload transport admin all_files s0 = (r, s) ->
  (file_id_cache s = file_id_cache s0 /\ (r = Ok tt -> admin = false)) \/
  exists s1, file_id_cache s1 = file_id_cache s0 /\
    let s2 := snd (process_all transport (length all_files) (Dict.keys all_files) s1) in
    file_id_cache s = file_id_cache s2 /\
    (r = Ok tt -> disk s = Some (normalize_cache (file_id_cache s2))).
Proof.
  intros Hrun. destruct admin; [|inversion Hrun; subst; now left].
  unfold cmd_upload in Hrun. cbn [negb] in Hrun. unfold bind at 1 in Hrun.
  destruct (tcall transport (AnswerText TStarting) s0) as [[h0|e0] s1] eqn:E0.
  2: { inversion Hrun; subst. left. split; [|discriminate]. unfold tcall in E0.
       destruct (transport (clock s0) (AnswerText TStarting)); inversion E0; reflexivity. }
  assert (C1 : file_id_cache s1 = file_id_cache s0)
    by (unfold tcall in E0; destruct (transport (clock s0) (AnswerText TStarting));
        inversion E0; reflexivity).
  rewrite bind_modify in Hrun. cbv beta zeta in Hrun. right.
  exists (reset_counters s1). split; [exact C1|]. cbv zeta.
  unfold bind at 1 in Hrun.
  destruct (process_all transport (length all_files) (Dict.keys all_files)
                        (reset_counters s1)) as [[u|e] s2] eqn:E2; simpl.
  2: { inversion Hrun; subst. split; [reflexivity|discriminate]. }
  unfold bind, save in Hrun. cbv beta zeta iota in Hrun.
  assert (HP : preserves SameStore (final_summary transport (length all_files)))
    by (apply final_summary_pres; [exact _| |]; intros; split; reflexivity).
  match type of Hrun with
  | final_summary _ _ ?st = _ => pose proof (HP st) as [Hc Hd]
  end.
  rewrite Hrun in Hc, Hd. simpl in Hc, Hd. split; [exact Hc|]. intros _. exact Hd.
Qed.

(** *** Bounds on the uploads of one path *)

Definition vbound (p : string) (n : nat) {A} (m : M A) : Prop :=
  forall s, exists new, trace (snd (m s)) = app new (trace s) /\ (count_voice p new <= n)%nat.

Lemma vbound_mono p n n' {A} (m : M A) : (n <= n')%nat -> vbound p n m -> vbound p n' m.
Proof. intros Hle H s. destruct (H s) as [new [T C]]. exists new. split; [exact T|lia]. Qed.

Lemma vbound_pres p {A} (m : M A) : preserves (NoVoice p) m -> vbound p 0 m.
Proof. intros H s. destruct (H s) as [new [T C]]. exists new. split; [exact T|lia]. Qed.

Lemma vbound_bind p a b {A B} (m : M A) (k : A -> M B) :
  vbound p a m -> (forall x, vbound p b (k x)) -> vbound p (a + b) (bind m k).
Proof.
  intros Hm Hk s. destruct (Hm s) as [n1 [T1 C1]]. unfold bind.
  destruct (m s) as [[x|e] s1]; simpl in *.
  - destruct (Hk x s1) as [n2 [T2 C2]]. exists (app n2 n1).
    split; [rewrite T2, T1; apply app_assoc|]. rewrite count_voice_app. lia.
  - exists n1. split; [exact T1|lia].
Qed.

Lemma vbound_try p a b {A} (m : M A) h :
  vbound p a m -> (forall e, vbound p b (h e)) -> vbound p (a + b) (try_except m h).
Proof.
  intros Hm Hh s. destruct (Hm s) as [n1 [T1 C1]]. unfold try_except.
  destruct (m s) as [[x|e] s1]; simpl in *.
  - exists n1. split; [exact T1|lia].
  - destruct (Hh e s1) as [n2 [T2 C2]]. exists (app n2 n1).
    split; [rewrite T2, T1; apply app_assoc|]. rewrite count_voice_app. lia.
Qed.

Lemma vbound_ret p {A} (a : A) : vbound p 0 (ret a).
Proof. intros s. exists []. split; reflexivity. Qed.

Lemma upload_once_vbound total p : vbound p 1 (upload_once transport total p).
Proof.
  intros s. destruct (upload_once transport total p s) as [r s1] eqn:E.
  destruct (upload_once_delays transport _ _ _ _ _ E) as [new [T [C _]]].
  exists new. simpl. split; [exact T|lia].
Qed.

Lemma on_failure_vbound p e : vbound p 0 (on_failure transport e).
Proof.
  apply vbound_pres. unfold on_failure. pres.
  - apply pres_tcall. intros s. exists [ECall (AnswerText (TPause retry_after))].
    split; reflexivity.
  - apply pres_modify. intros s. exists [ESleep (retry_after + 2)]. split; reflexivity.
  - apply pres_modify. intros s. exists []. split; reflexivity.
  - apply pres_modify. intros s. exists [ESleep 1]. split; reflexivity.
Qed.

Lemma retry_loop_vbound fuel total p rc : vbound p fuel (retry_loop transport fuel total p rc).
Proof.
  revert rc. induction fuel as [|fuel IH]; intros rc; [apply vbound_ret|].
  rewrite <- (Nat.add_1_l fuel). simpl retry_loop.
  destruct (Nat.ltb rc max_retries).
  - apply vbound_bind.
    + apply (vbound_try p 1 0); [apply (vbound_bind p 1 0); [apply upload_once_vbound|intros; apply vbound_ret]|].
      intros e. apply (vbound_bind p 0 0); [apply on_failure_vbound|intros; apply vbound_ret].
    + intros [|]; [apply (vbound_mono p 0); [lia|apply vbound_ret]|apply IH].
  - apply (vbound_mono p 0); [lia|apply vbound_ret].
Qed.

Lemma process_entry_vbound total p : vbound p 3 (process_entry transport total p).
Proof.
  unfold process_entry. apply (vbound_bind p 0 3); [intros s; exists []; split; reflexivity|].
  intros c. destruct (Dict.mem p c).
  - apply (vbound_mono p 0); [lia|]. intros s. exists []. split; reflexivity.
  - apply (vbound_bind p 3 0); [apply retry_loop_vbound|intros; apply vbound_ret].
Qed.

Lemma process_all_vbound total p l :
  NoDup l -> vbound p (if in_dec string_dec p l then 3 else 0) (process_all transport total l).
Proof.
  induction l as [|q r IH]; intros Hnd; [apply vbound_ret|].
  inversion Hnd as [|? ? Hq Hnd']; subst. simpl process_all.
  destruct (string_dec q p) as [->|Hne].
  - destruct (in_dec string_dec p (p :: r)) as [_|N]; [|exfalso; apply N; now left].
    apply (vbound_bind p 3 0); [apply process_entry_vbound|intros _].
    specialize (IH Hnd'). destruct (in_dec string_dec p r); [contradiction|exact IH].
  - replace (if in_dec string_dec p (q :: r) then 3 else 0)%nat
      with (0 + if in_dec string_dec p r then 3 else 0)%nat
      by (destruct (in_dec string_dec p r), (in_dec string_dec p (q :: r));
          simpl in *; intuition congruence).
    apply vbound_bind; [|intros _; now apply IH].
    apply vbound_pres. intros s.
    destruct (process_entry_Other transport total p q Hne s) as [_ [_ [new [T C]]]].
    exists new. split; [exact T|]. unfold entry_calls in C. lia.
Qed.

Lemma cmd_upload_vbound admin all_files p :
  NoDup (Dict.keys all_files) ->
  vbound p (if in_dec string_dec p (Dict.keys all_files) then 3 else 0)
    (cmd_upload transport admin all_files).
Proof.
  intros Hnd. unfold cmd_upload. destruct admin; cbn [negb];
    [|apply (vbound_mono p 0); [lia|apply vbound_ret]].
  apply (vbound_bind p 0); [apply vbound_pres, pres_tcall; intros s;
                            exists [ECall (AnswerText TStarting)]; split; reflexivity|].
  intros _. apply (vbound_bind p 0); [intros s; exists []; split; reflexivity|].
  intros _. cbv zeta.
  set (n := if in_dec string_dec p (Dict.keys all_files) then 3%nat else 0%nat).
  rewrite <- (Nat.add_0_r n).
  apply vbound_bind; [now apply process_all_vbound|intros _].
  apply (vbound_bind p 0 0); [intros s; exists [ESave (file_id_cache s)]; split; reflexivity|].
  intros _. apply vbound_pres, final_summary_pres; [exact _| |].
  - intros s t. exists [ECall (AnswerText t)]. split; reflexivity.
  - intros s d. exists [ESleep d]. split; reflexivity.
Qed.

End WithTransport.
End UploadFacts.

Import UploadFacts.

(** ** The upload run *)

(** [X9] A [/upload] run by an admin that completes has written the cache
    file, and what the file holds is the final in-memory cache with its paths
    normalized to forward slashes. *)
Theorem upload_saves_cache (transport : nat -> call -> reply)
    (all_files : Dict.t string) (s0 s : state) :
  cmd_upload transport true all_files s0 = (Ok tt, s) ->
  disk s = Some (normalize_cache (file_id_cache s)).
Proof.
  intros Hrun. destruct (cmd_upload_store transport _ _ _ _ _ Hrun)
    as [[_ H]|[s1 [_ [Hc Hd]]]]; [discriminate (H eq_refl)|].
  rewrite Hc. exact (Hd eq_refl).
Qed.

Lemma upload_saves_cache_witness :
  disk (snd (cmd_upload failing_transport true demo_files demo_s0)) =
    Some (normalize_cache (file_id_cache (snd (cmd_upload failing_transport true demo_files demo_s0)))).
Proof.
  apply (upload_saves_cache failing_transport demo_files demo_s0). vm_compute. reflexivity.
Defined.



(** [X11] When the catalog has no duplicate path, a [/upload] run calls
    [answer_voice] at most 3 times for each path, and never for a path that
    is not in the catalog. *)
Theorem upload_attempts_per_entry (transport : nat -> call -> reply) (admin : bool)
    (all_files : Dict.t string) (s0 s : state) (r : result unit) :
  NoDup (Dict.keys all_files) ->
  cmd_upload transport admin all_files s0 = (r, s) ->
  exists new, trace s = app new (trace s0) /\
    forall k, (count_voice k new <= 3)%nat /\
      (~ In k (Dict.keys all_files) -> count_voice k new = 0%nat).
Proof.
  intros Hnd Hrun.
  assert (B : forall k, exists new, trace s = app new (trace s0) /\
            (count_voice k new <= if in_dec string_dec k (Dict.keys all_files) then 3 else 0)%nat).
  { intros k. destruct (cmd_upload_vbound transport admin all_files k Hnd s0) as [new [T C]].
    rewrite Hrun in T. exists new. split; [exact T|exact C]. }
  destruct (B EmptyString) as [new [T _]]. exists new. split; [exact T|].
  intros k. destruct (B k) as [new' [T' C']].
  assert (new' = new) as -> by (apply (app_inv_tail (trace s0)); congruence).
  destruct (in_dec string_dec k (Dict.keys all_files)); split; try lia; try contradiction.
Qed.

Lemma upload_attempts_per_entry_witness :
  exists new, trace (snd (cmd_upload failing_transport true demo_files demo_s0)) =
              app new (trace demo_s0) /\
    forall k, (count_voice k new <= 3)%nat /\
      (~ In k (Dict.keys demo_files) -> count_voice k new = 0%nat).
Proof.
  apply (upload_attempts_per_entry failing_transport true demo_files demo_s0 _
           (fst (cmd_upload failing_transport true demo_files demo_s0))).
  - exact demo_files_NoDup.
  - apply surjective_pairing.
Defined.

(** ** The restart loop of [main] *)
Module MainFacts.

Definition is_msleep (e : mevent) : bool := match e with MSleep _ => true | _ => false end.

(** the iterations that increment [restart_count] *)
Definition is_failure (o : iteration) : bool :=
  match o with StartupError | Polled PollError => true | _ => false end.

(** the iterations that leave [main] without a restart *)
Definition is_stop (o : iteration) : bool :=
  match o with
  | StartupBaseException | Polled PollStopped | Polled PollBaseException => true
  | _ => false
  end.

Definition count_m (f : mevent -> bool) (ev : list mevent) : nat := length (filter f ev).

Definition failures (outcomes : list iteration) : nat := length (filter is_failure outcomes).

Definition five_seconds (e : mevent) : Prop := forall d, e = MSleep d -> d = 5%nat.

(** the events of one iteration: a start-up that fails (and sleeps) or
    raises, or a start-up followed by polling, then the cleanup, with the
    sleep of a polling error between them *)
Definition iteration_events (b : list mevent) : Prop :=
  b = [MStart; MSleep 5] \/ b = [MStart] \/ b = [MStart; MPoll; MCleanup] \/
  b = [MStart; MPoll; MSleep 5; MCleanup].

Lemma main_loop_gen outcomes rc :
  (rc <= 5)%nat ->
  Forall five_seconds (fst (main_loop outcomes rc)) /\
  (count_m is_msleep (fst (main_loop outcomes rc)) + rc <= 5)%nat /\
  (snd (main_loop outcomes rc) = Exhausted <->
   count_m is_msleep (fst (main_loop outcomes rc)) + rc = 5)%nat /\
  (exists iters, fst (main_loop outcomes rc) = concat iters /\ Forall iteration_events iters) /\
  (snd (main_loop outcomes rc) = Exhausted -> 5 <= rc + failures outcomes)%nat /\
  (forallb (fun o => negb (is_stop o)) outcomes = true ->
   (snd (main_loop outcomes rc) = Exhausted <-> 5 <= rc + failures outcomes)%nat /\
   (snd (main_loop outcomes rc) = Running \/ snd (main_loop outcomes rc) = Exhausted)).
Proof.
  revert rc. induction outcomes as [|o r IH]; intros rc Hrc; cbn [main_loop];
    (destruct (Nat.ltb rc max_restarts) eqn:L;
     [apply Nat.ltb_lt in L | apply Nat.ltb_ge in L]; unfold max_restarts in L).
  - cbn. split; [constructor|]. split; [lia|].
    split; [split; [discriminate|lia]|]. split; [exists []; split; constructor|].
    split; [discriminate|]. intros _. split; [split; [discriminate|lia]|]. now left.
  - cbn. split; [constructor|]. split; [lia|].
    split; [split; [lia|reflexivity]|]. split; [exists []; split; constructor|].
    split; [lia|]. intros _. split; [split; [lia|reflexivity]|]. now right.
  - destruct o as [| |[| | |]].
    + specialize (IH (S rc) ltac:(lia)).
      destruct (main_loop r (S rc)) as [ev ex] eqn:E. cbn [fst snd] in *.
      destruct IH as [F [S1 [X [[its [P Fi]] [Ex St]]]]].
      unfold count_m, failures in *. cbn [filter length is_msleep is_failure forallb is_stop negb andb] in *.
      split; [repeat constructor; [intros d Hd; discriminate|intros d Hd; now inversion Hd|exact F]|].
      split; [lia|]. split; [rewrite X; lia|].
      split; [exists ([MStart; MSleep 5] :: its); split;
              [simpl; now rewrite P|constructor; [now left|exact Fi]]|].
      split; [intros H; specialize (Ex H); lia|].
      intros Hs. destruct (St Hs) as [St1 St2]. split; [rewrite St1; lia|exact St2].
    + cbn. split; [repeat constructor; intros d Hd; discriminate|]. split; [lia|].
      split; [split; [discriminate|lia]|].
      split; [exists [[MStart]]; split; [reflexivity|repeat constructor; now right; left]|].
      split; [discriminate|]. discriminate.
    + specialize (IH rc Hrc).
      destruct (main_loop r rc) as [ev ex] eqn:E. cbn [fst snd] in *.
      destruct IH as [F [S1 [X [[its [P Fi]] [Ex St]]]]].
      unfold count_m, failures in *. cbn [filter length is_msleep is_failure forallb is_stop negb andb] in *.
      split; [repeat constructor; try (intros d Hd; discriminate); exact F|].
      split; [lia|]. split; [exact X|].
      split; [exists ([MStart; MPoll; MCleanup] :: its); split;
              [simpl; now rewrite P|constructor; [now right; right; left|exact Fi]]|].
      split; [exact Ex|]. exact St.
    + cbn. split; [repeat constructor; intros d Hd; discriminate|]. split; [lia|].
      split; [split; [discriminate|lia]|].
      split; [exists [[MStart; MPoll; MCleanup]]; split;
              [reflexivity|repeat constructor; now right; right; left]|].
      split; [discriminate|]. discriminate.
    + specialize (IH (S rc) ltac:(lia)).
      destruct (main_loop r (S rc)) as [ev ex] eqn:E. cbn [fst snd] in *.
      destruct IH as [F [S1 [X [[its [P Fi]] [Ex St]]]]].
      unfold count_m, failures in *. cbn [filter length is_msleep is_failure forallb is_stop negb andb] in *.
      split; [repeat constructor; try (intros d Hd; discriminate);
              [intros d Hd; now inversion Hd|exact F]|].
      split; [lia|]. split; [rewrite X; lia|].
      split; [exists ([MStart; MPoll; MSleep 5; MCleanup] :: its); split;
              [simpl; now rewrite P|constructor; [now right; right; right|exact Fi]]|].
      split; [intros H; specialize (Ex H); lia|].
      intros Hs. destruct (St Hs) as [St1 St2]. split; [rewrite St1; lia|exact St2].
    + cbn. split; [repeat constructor; intros d Hd; discriminate|]. split; [lia|].
      split; [split; [discriminate|lia]|].
      split; [exists [[MStart; MPoll; MCleanup]]; split;
              [reflexivity|repeat constructor; now right; right; left]|].
      split; [discriminate|]. discriminate.
  - cbn. split; [constructor|]. split; [lia|].
    split; [split; [lia|reflexivity]|]. split; [exists []; split; constructor|].
    split; [lia|]. intros _. split; [split; [lia|reflexivity]|]. now right.
Qed.

End MainFacts.

Import MainFacts.

(** [X12] However the iterations of [main] go, it sleeps only 5 seconds at
    a time and at most 5 times.  Its events split into iterations: a
    failed start-up and its sleep, a start-up that raises out of [main], or
    a start-up and polling followed by the cleanup (after the sleep when
    polling raised an [Exception]); so every polling it starts is followed
    by the cleanup before anything else starts.  It gives up on the restart
    budget exactly when it has slept 5 times, which takes 5 failed
    iterations. *)
Theorem main_restart_budget (outcomes : list iteration) :
  Forall five_seconds (fst (main_loop outcomes 0)) /\
  (count_m is_msleep (fst (main_loop outcomes 0)) <= 5)%nat /\
  (snd (main_loop outcomes 0) = Exhausted <-> count_m is_msleep (fst (main_loop outcomes 0)) = 5%nat) /\
  (exists iters, fst (main_loop outcomes 0) = concat iters /\ Forall iteration_events iters) /\
  (snd (main_loop outcomes 0) = Exhausted -> 5 <= failures outcomes)%nat.
Proof.
  destruct (main_loop_gen outcomes 0 ltac:(lia)) as [F [S1 [X [P [Ex _]]]]].
  rewrite Nat.add_0_r in S1, X. split; [exact F|]. split; [exact S1|].
  split; [exact X|]. split; [exact P|]. exact Ex.
Qed.

(** [X13] When no iteration is stopped by a signal or by another
    [BaseException], [main] leaves its loop on the restart budget exactly
    when at least 5 iterations failed (start-up or polling error); returning
    polling does not count. *)
Theorem main_exhausts_on_failures (outcomes : list iteration) :
  forallb (fun o => negb (is_stop o)) outcomes = true ->
  (snd (main_loop outcomes 0) = Exhausted <-> 5 <= failures outcomes)%nat /\
  (snd (main_loop outcomes 0) = Running \/ snd (main_loop outcomes 0) = Exhausted).
Proof.
  intros Hs. destruct (main_loop_gen outcomes 0 ltac:(lia)) as [_ [_ [_ [_ [_ St]]]]].
  exact (St Hs).
Qed.

Lemma main_exhausts_on_failures_witness :
  (snd (main_loop [Polled PollReturned; StartupError; Polled PollError; StartupError;
                   Polled PollReturned; Polled PollError; StartupError] 0) = Exhausted <->
   5 <= failures [Polled PollReturned; StartupError; Polled PollError; StartupError;
                  Polled PollReturned; Polled PollError; StartupError])%nat /\
  (snd (main_loop [Polled PollReturned; StartupError; Polled PollError; StartupError;
                   Polled PollReturned; Polled PollError; StartupError] 0) = Running \/
   snd (main_loop [Polled PollReturned; StartupError; Polled PollError; StartupError;
                   Polled PollReturned; Polled PollError; StartupError] 0) = Exhausted).
Proof. apply main_exhausts_on_failures. reflexivity. Defined.
